(** * pyircw: a shallow embedding of [irc.py]

    The module [irc.py] holds an IRC client ([IRC_Client]), a bot on top of
    it ([Bot]), the parser of one protocol line ([IRC_Message]) and the
    helper that reassembles lines from socket reads ([_read_buffer]).

    Python values are modelled as follows.
    - [str] is a sequence of Unicode code points, [bytes] a sequence of
      bytes; [encode('utf-8')] and [decode('utf-8')] are the strict codec.
    - [None] is [option]'s [None].
    - An exception that leaves a function is the [Raise] result; a loop
      that never ends is the [OutOfFuel] result, for every amount of fuel.
    - The object [self] is a record threaded through a state monad; the
      socket is a record of the chunks the peer delivers and of the sizes
      the kernel accepts on each write. *)

From Stdlib Require Import List NArith ZArith Bool Arith Lia String Ascii.
From Stdlib Require Import Init.Byte DecimalString.
Import ListNotations.

Set Implicit Arguments.
Local Open Scope list_scope.

(** ** Text and bytes *)

Module Py.

(** A Python [str]: its code points, in order. *)
Definition str := list N.

(** A Python [bytes] object. *)
Definition bytes := list byte.

(** An ASCII literal of the source, as a [str]. *)
Definition lit (s : string) : str :=
  List.map N_of_ascii (list_ascii_of_string s).

(** An ASCII literal of the source, as [bytes]. *)
Definition blit (s : string) : bytes := list_byte_of_string s.

Definition CR : N := 13.
Definition LF : N := 10.
Definition CRLF : str := [CR; LF].

(** [a == b] on strings. *)
Fixpoint str_eqb (a b : str) : bool :=
  match a, b with
  | [], [] => true
  | x :: a', y :: b' => N.eqb x y && str_eqb a' b'
  | _, _ => false
  end.

(** [s.startswith(p)]. *)
Fixpoint startswith (p s : str) : bool :=
  match p, s with
  | [], _ => true
  | x :: p', y :: s' => N.eqb x y && startswith p' s'
  | _ :: _, [] => false
  end.

(** [sub in s]: [sub] occurs in [s] as a substring. *)
Fixpoint str_in (sub s : str) : bool :=
  startswith sub s ||
  match s with
  | [] => false
  | _ :: s' => str_in sub s'
  end.

(** [s.split(sep)] for a non-empty [sep]: the separators are searched from
    the left and do not overlap.  [skip] counts the code points of a
    separator just matched that are still to be passed over, [cur] is the
    piece being collected. *)
Fixpoint split_go (sep : str) (skip : nat) (cur s : str) : list str :=
  match s with
  | [] => [cur]
  | c :: s' =>
      match skip with
      | S k => split_go sep k cur s'
      | O =>
          if startswith sep s
          then cur :: split_go sep (List.length sep - 1) [] s'
          else split_go sep 0 (cur ++ [c]) s'
      end
  end.

Definition split (sep s : str) : list str := split_go sep 0 [] s.

(** [sep.join(ws)]. *)
Fixpoint join (sep : str) (ws : list str) : str :=
  match ws with
  | [] => []
  | [w] => w
  | w :: ws' => w ++ sep ++ join sep ws'
  end.

(** [str(z)] for an [int]. *)
Definition str_of_int (z : Z) : str :=
  lit (NilZero.string_of_int (Z.to_int z)).

(** What an f-string puts for [{x}] when [x] is a string or [None]. *)
Definition fmt (x : option str) : str :=
  match x with
  | Some s => s
  | None => lit "None"
  end.

(** *** The UTF-8 codec *)

Definition byte_of (n : N) : byte :=
  match Byte.of_N (n mod 256) with
  | Some b => b
  | None => x00
  end.

(** The bytes of one code point; [None] where Python raises
    [UnicodeEncodeError] (a surrogate) or where the number is no code
    point at all. *)
Definition encode_cp (c : N) : option bytes :=
  if (c <? 128)%N then Some [byte_of c]
  else if (c <? 2048)%N then
    Some [byte_of (192 + c / 64); byte_of (128 + c mod 64)]
  else if (c <? 65536)%N then
    if ((55296 <=? c) && (c <=? 57343))%N then None
    else Some [byte_of (224 + c / 4096);
               byte_of (128 + (c / 64) mod 64);
               byte_of (128 + c mod 64)]
  else if (c <? 1114112)%N then
    Some [byte_of (240 + c / 262144);
          byte_of (128 + (c / 4096) mod 64);
          byte_of (128 + (c / 64) mod 64);
          byte_of (128 + c mod 64)]
  else None.

(** [s.encode('utf-8')]; [None] stands for [UnicodeEncodeError]. *)
Fixpoint utf8_encode (s : str) : option bytes :=
  match s with
  | [] => Some []
  | c :: s' =>
      match encode_cp c, utf8_encode s' with
      | Some x, Some y => Some (x ++ y)
      | _, _ => None
      end
  end.

(** A continuation byte, [10xxxxxx]. *)
Definition is_cont (b : byte) : bool :=
  ((128 <=? Byte.to_N b) && (Byte.to_N b <? 192))%N.

Definition low6 (b : byte) : N := (Byte.to_N b mod 64)%N.

(** [b.decode('utf-8')]; [None] stands for [UnicodeDecodeError]: a stray
    or missing continuation byte, an overlong form, a surrogate or a
    value above U+10FFFF.  [pending] is the number of continuation bytes
    the current code point still expects, [acc] the bits read so far and
    [lo] the least value that its length may encode. *)
Fixpoint decode_go (pending : nat) (acc lo : N) (bs : bytes) : option str :=
  match bs with
  | [] => match pending with O => Some [] | S _ => None end
  | b :: bs' =>
      let n := Byte.to_N b in
      match pending with
      | O =>
          if (n <? 128)%N then option_map (cons n) (decode_go 0 0 0 bs')
          else if (n <? 192)%N then None
          else if (n <? 224)%N then decode_go 1 (n mod 32) 128 bs'
          else if (n <? 240)%N then decode_go 2 (n mod 16) 2048 bs'
          else if (n <? 248)%N then decode_go 3 (n mod 8) 65536 bs'
          else None
      | S O =>
          if is_cont b then
            let c := (acc * 64 + low6 b)%N in
            if ((c <? lo) || (1114111 <? c)
                || ((55296 <=? c) && (c <=? 57343)))%N
            then None
            else option_map (cons c) (decode_go 0 0 0 bs')
          else None
      | S k =>
          if is_cont b then decode_go k (acc * 64 + low6 b) lo bs'
          else None
      end
  end.

Definition utf8_decode (bs : bytes) : option str := decode_go 0 0 0 bs.

End Py.

Import Py.

(** ** Results, exceptions and containers *)

(** The exceptions that the module itself can raise. *)
Inductive exn : Type :=
| TypeError
| IndexError
| ValueError
| AttributeError
| UnicodeEncodeError
| UnicodeDecodeError.

(** How a call ends: with a value, with an exception, or not at all within
    the fuel it was given. *)
Inductive res (A : Type) : Type :=
| Ok (a : A)
| Raise (e : exn)
| OutOfFuel.

Arguments Ok {A} a.
Arguments Raise {A} e.
Arguments OutOfFuel {A}.

Definition res_bind {A B} (r : res A) (k : A -> res B) : res B :=
  match r with
  | Ok a => k a
  | Raise e => Raise e
  | OutOfFuel => OutOfFuel
  end.

Notation "x <~ c1 ;; c2" := (res_bind c1 (fun x => c2))
  (at level 61, c1 at next level, right associativity).

(** [xs[i]] for [i >= 0]. *)
Definition getitem {A} (xs : list A) (i : nat) : res A :=
  match nth_error xs i with
  | Some x => Ok x
  | None => Raise IndexError
  end.

(** [xs[-1]]. *)
Definition getlast {A} (xs : list A) : res A :=
  match rev xs with
  | x :: _ => Ok x
  | [] => Raise IndexError
  end.

(** Subscripting or calling a method on a value that may be [None]. *)
Definition not_none {A} (e : exn) (x : option A) : res A :=
  match x with
  | Some a => Ok a
  | None => Raise e
  end.

(** [w.index(x)]: the position of the first element equal to [x]. *)
Fixpoint index (x : str) (w : list str) : res nat :=
  match w with
  | [] => Raise ValueError
  | y :: w' => if str_eqb y x then Ok 0 else i <~ index x w' ;; Ok (S i)
  end.

(** ** The parser of one line: class [IRC_Message] *)

Module IRC_Message.

Record t : Type := Build {
  prefix : option str;
  nickname : option str;
  command : option str;
  middle : option str;
  trailing : option str;
  message : option str
}.

(** [IRC_Message(s)]. *)
Definition __init__ (s : str) : res t :=
  let w := split (lit " ") s in
  pc <~ (if 1 <? List.length w then
           w0 <~ getitem w 0 ;;
           c <~ getitem w0 0 ;;
           if str_eqb [c] (lit ":") then
             match firstn 2 w with
             | [p; c] => Ok (Some p, Some c)
             | _ => Raise ValueError
             end
           else Ok (None, Some w0)
         else Ok (None, None)) ;;
  let prefix := fst pc in
  let command := snd pc in
  nickname <~ match prefix with
              | Some p =>
                  if str_in (lit "!") p then
                    n <~ getitem (split (lit "!") p) 0 ;;
                    Ok (Some (skipn 1 n))
                  else Ok None
              | None => Ok None
              end ;;
  middle <~ match command with
            | Some c =>
                i <~ index c w ;;
                if i + 1 <? List.length w then
                  j <~ index c w ;;
                  m <~ getitem w (j + 1) ;;
                  Ok (Some m)
                else Ok None
            | None => Ok None
            end ;;
  trailing <~ match middle with
              | Some m =>
                  i <~ index m w ;;
                  if i + 1 <? List.length w then
                    j <~ index m w ;;
                    Ok (Some (join (lit " ") (skipn (j + 1) w)))
                  else Ok None
              | None => Ok None
              end ;;
  let message := option_map (skipn 1) trailing in
  Ok (Build prefix nickname command middle trailing message).

(** [str(msg)]. *)
Definition __str__ (self : t) : str :=
  let s :=
    fold_left
      (fun s w => match w with Some w => s ++ w ++ lit " " | None => s end)
      [prefix self; command self; middle self; trailing self] [] in
  removelast s.

(** The message of which every field is [None]. *)
Definition absent : t := Build None None None None None None.

End IRC_Message.

(** [_parse_irc_messages(messages)]. *)
Fixpoint _parse_irc_messages (messages : list str) : res (list IRC_Message.t) :=
  match messages with
  | [] => Ok []
  | m :: rest =>
      i <~ IRC_Message.__init__ m ;;
      ret <~ _parse_irc_messages rest ;;
      Ok (i :: ret)
  end.

(** ** The socket and the object [self] *)

(** A connected socket.  [inbound] lists the chunks the peer delivers, in
    order, after which it closes the connection: every later [recv]
    returns zero bytes.  [accepts] lists how many bytes the kernel takes
    on each of the next calls of [send]; once it is used up a call takes
    all it is given.  [wire] collects the bytes that did leave. *)
Record Socket : Type := {
  inbound : list bytes;
  accepts : list nat;
  wire : bytes
}.

(** A handler ends by returning a string or [None], or by raising an
    [Exception], given here by its [repr].  A handler is known to the
    model by this outcome alone: one that sends on its own or changes the
    bot, and an exit request such as [SystemExit], which [except
    Exception] lets through, are not described. *)
Inductive outcome : Type :=
| Returns (r : option str)
| Raises (repr : str).

(** The configuration attributes of a [Bot], which a handler can read. *)
Record Identity : Type := {
  channel : str;
  nickname : str;
  username : str;
  mode : Z;
  fullname : str;
  bang : str
}.

(** [BotFunction]: called with the bot and the message. *)
Definition BotFunction : Type := Identity -> IRC_Message.t -> outcome.

(** Which of the two handler collections a handler was taken from. *)
Inductive kind : Type := Bang | Generic.

(** What can be observed of a run: a line printed, a buffer handed to the
    socket's [send], the call of the handler at a position of
    [functions] or of [on_privmsg]. *)
Inductive event : Type :=
| Stdout (s : str)
| Send (data : bytes)
| Invoke (k : kind) (i : nat).

(** A [Bot] object together with the events of its run so far. *)
Record Bot : Type := {
  sock : Socket;
  messages : list IRC_Message.t;
  ident : Identity;
  functions : list (str * BotFunction);
  on_privmsg : list BotFunction;
  trace : list event
}.

Definition set_sock (s : Socket) (self : Bot) : Bot :=
  {| sock := s; messages := messages self; ident := ident self;
     functions := functions self; on_privmsg := on_privmsg self;
     trace := trace self |}.

Definition set_messages (ms : list IRC_Message.t) (self : Bot) : Bot :=
  {| sock := sock self; messages := ms; ident := ident self;
     functions := functions self; on_privmsg := on_privmsg self;
     trace := trace self |}.

Definition set_ident (i : Identity) (self : Bot) : Bot :=
  {| sock := sock self; messages := messages self; ident := i;
     functions := functions self; on_privmsg := on_privmsg self;
     trace := trace self |}.

Definition log (e : event) (self : Bot) : Bot :=
  {| sock := sock self; messages := messages self; ident := ident self;
     functions := functions self; on_privmsg := on_privmsg self;
     trace := trace self ++ [e] |}.

(** A method: it reads and updates [self] and ends as a [res]. *)
Definition M (A : Type) : Type := Bot -> res A * Bot.

Definition ret {A} (a : A) : M A := fun self => (Ok a, self).

Definition bind {A B} (m : M A) (k : A -> M B) : M B :=
  fun self =>
    match m self with
    | (Ok a, self') => k a self'
    | (Raise e, self') => (Raise e, self')
    | (OutOfFuel, self') => (OutOfFuel, self')
    end.

Notation "x <- c1 ;; c2" := (bind c1 (fun x => c2))
  (at level 61, c1 at next level, right associativity).

Definition lift {A} (r : res A) : M A := fun self => (r, self).

Definition get : M Bot := fun self => (Ok self, self).

Definition modify (f : Bot -> Bot) : M unit := fun self => (Ok tt, f self).

(** [sock.recv(bufsize)]: at most [bufsize] bytes of the next chunk; what
    is left of the chunk stays for the next call. *)
Definition recv (bufsize : nat) : M bytes :=
  fun self =>
    let s := sock self in
    match inbound s with
    | [] => (Ok [], self)
    | c :: rest =>
        let later := match skipn bufsize c with
                     | [] => rest
                     | c' => c' :: rest
                     end in
        (Ok (firstn bufsize c),
         set_sock {| inbound := later; accepts := accepts s;
                     wire := wire s |} self)
    end.

(** [sock.send(data)]: one write, which may take only a prefix of [data];
    the result is the number of bytes taken. *)
Definition sock_send (data : bytes) : M nat :=
  fun self =>
    let s := sock self in
    let n := match accepts s with
             | [] => List.length data
             | k :: _ => Nat.min k (List.length data)
             end in
    (Ok n,
     log (Send data)
       (set_sock {| inbound := inbound s; accepts := tl (accepts s);
                    wire := wire s ++ firstn n data |} self)).

(** ** Class [IRC_Client] *)

(** [IRC_Client.send(s)]. *)
Definition send (s : str) : M unit :=
  data <- lift (not_none UnicodeEncodeError (utf8_encode s)) ;;
  _ <- sock_send data ;;
  ret tt.

(** [IRC_Client.pong(s)]. *)
Definition pong (s : option str) : M unit :=
  let s := lit "PONG " ++ fmt s ++ CRLF in
  send s.

(** [IRC_Client.privmsg(channel, message)]. *)
Definition privmsg (channel : option str) (message : str) : M unit :=
  let s := lit "PRIVMSG " ++ fmt channel ++ lit " " ++ message ++ CRLF in
  send s.

(** [IRC_Client.nick(nickname)]. *)
Definition nick (nickname' : str) : M unit :=
  _ <- modify (fun self =>
         let i := ident self in
         set_ident {| channel := channel i; nickname := nickname';
                      username := username i; mode := mode i;
                      fullname := fullname i; bang := bang i |} self) ;;
  let s := lit "NICK " ++ nickname' ++ CRLF in
  send s.

(** [IRC_Client.user(username, mode, fullname)]. *)
Definition user (username' : str) (mode' : Z) (fullname' : str) : M unit :=
  _ <- modify (fun self =>
         let i := ident self in
         set_ident {| channel := channel i; nickname := nickname i;
                      username := username'; mode := mode';
                      fullname := fullname'; bang := bang i |} self) ;;
  let s := lit "USER " ++ username' ++ lit " " ++ str_of_int mode'
           ++ lit " * :" ++ fullname' in
  send s.

(** [IRC_Client.join(channel)]. *)
Definition join (channel' : str) : M unit :=
  let s := lit "JOIN " ++ channel' ++ CRLF in
  send s.

(** The loop of [_read_buffer]: [while buf[-1] != b'\n'[0]: buf +=
    sock.recv(1024)]. *)
Fixpoint read_loop (fuel : nat) (buf : bytes) : M bytes :=
  b <- lift (getlast buf) ;;
  if negb (N.eqb (Byte.to_N b) LF) then
    match fuel with
    | O => lift OutOfFuel
    | S fuel' =>
        chunk <- recv 1024 ;;
        read_loop fuel' (buf ++ chunk)
    end
  else ret buf.

(** [_read_buffer(sock)]. *)
Definition _read_buffer (fuel : nat) : M (option str) :=
  buf <- recv 1024 ;;
  if List.length buf <? 1 then ret None
  else
    buf <- read_loop fuel buf ;;
    text <- lift (not_none UnicodeDecodeError (utf8_decode buf)) ;;
    ret (Some text).

(** [IRC_Client.read()]. *)
Definition read (fuel : nat) : M unit :=
  buf <- _read_buffer fuel ;;
  match buf with
  | None => modify (set_messages [])
  | Some buf =>
      let lines := removelast (split CRLF buf) in
      ms <- lift (_parse_irc_messages lines) ;;
      modify (set_messages ms)
  end.

(** ** Class [Bot] *)

(** [Bot.register()]. *)
Definition register : M unit :=
  self <- get ;;
  _ <- nick (nickname (ident self)) ;;
  self <- get ;;
  user (username (ident self)) (mode (ident self)) (fullname (ident self)).

(** [try: r = f(self, msg) except Exception as e: r = repr(e)], for the
    handler [f] found at position [i] of the collection [k]. *)
Definition call (k : kind) (i : nat) (f : BotFunction) (msg : IRC_Message.t)
  : M (option str) :=
  self <- get ;;
  _ <- modify (log (Invoke k i)) ;;
  match f (ident self) msg with
  | Returns r => ret r
  | Raises e => ret (Some e)
  end.

(** [if r is not None: self.privmsg(respond_to, r)]. *)
Definition reply (respond_to : option str) (r : option str) : M unit :=
  match r with
  | Some r => privmsg respond_to r
  | None => ret tt
  end.

(** The loop of [__call_function], from position [i] of [self.functions]
    on. *)
Fixpoint call_function_loop (msg : IRC_Message.t) (respond_to : option str)
    (i : nat) (fs : list (str * BotFunction)) : M unit :=
  match fs with
  | [] => ret tt
  | (b, f) :: fs' =>
      body <- lift (not_none AttributeError (IRC_Message.message msg)) ;;
      w0 <- lift (getitem (split (lit " ") body) 0) ;;
      if negb (str_eqb (skipn 1 w0) b) then ret tt
      else
        r <- call Bang i f msg ;;
        _ <- reply respond_to r ;;
        call_function_loop msg respond_to (S i) fs'
  end.

(** [Bot.__call_function(msg, respond_to)]. *)
Definition __call_function (msg : IRC_Message.t) (respond_to : option str)
  : M unit :=
  self <- get ;;
  body <- lift (not_none TypeError (IRC_Message.message msg)) ;;
  c <- lift (getitem body 0) ;;
  if negb (str_eqb [c] (bang (ident self))) then ret tt
  else call_function_loop msg respond_to 0 (functions self).

(** The loop of [__call_on_privmsg], from position [i] of
    [self.on_privmsg] on. *)
Fixpoint call_on_privmsg_loop (msg : IRC_Message.t) (respond_to : option str)
    (i : nat) (fs : list BotFunction) : M unit :=
  match fs with
  | [] => ret tt
  | f :: fs' =>
      r <- call Generic i f msg ;;
      _ <- reply respond_to r ;;
      call_on_privmsg_loop msg respond_to (S i) fs'
  end.

(** [Bot.__call_on_privmsg(msg, respond_to)]. *)
Definition __call_on_privmsg (msg : IRC_Message.t) (respond_to : option str)
  : M unit :=
  self <- get ;;
  call_on_privmsg_loop msg respond_to 0 (on_privmsg self).

(** The body of the loop of [Bot.run]: what is done with one message. *)
Definition dispatch (msg : IRC_Message.t) : M unit :=
  _ <- modify (log (Stdout (IRC_Message.__str__ msg))) ;;
  self <- get ;;
  match IRC_Message.command msg with
  | None => ret tt
  | Some cmd =>
      if str_eqb cmd (lit "PING") then pong (IRC_Message.middle msg)
      else if str_eqb cmd (lit "001") then join (channel (ident self))
      else if str_eqb cmd (lit "PRIVMSG") then
        mid <- lift (not_none TypeError (IRC_Message.middle msg)) ;;
        c <- lift (getitem mid 0) ;;
        let respond_to :=
          if str_eqb [c] (lit "#") then IRC_Message.middle msg
          else IRC_Message.nickname msg in
        _ <- __call_function msg respond_to ;;
        __call_on_privmsg msg respond_to
      else ret tt
  end.

(** [for msg in msgs: ...] with the body above. *)
Fixpoint dispatch_all (msgs : list IRC_Message.t) : M unit :=
  match msgs with
  | [] => ret tt
  | msg :: rest => _ <- dispatch msg ;; dispatch_all rest
  end.

(** [Bot.run()]. *)
Definition run (fuel : nat) : M unit :=
  _ <- read fuel ;;
  self <- get ;;
  dispatch_all (messages self).

(** One inbound line taken through the parser and the loop body of
    [run]. *)
Definition handle_line (line : str) : M unit :=
  msg <- lift (IRC_Message.__init__ line) ;;
  dispatch msg.

(** ** Reading a trace *)

(** The positions of the handlers called, in the order of the calls. *)
Definition invoked (k : kind) (t : list event) : list nat :=
  flat_map (fun e => match e, k with
                     | Invoke Bang i, Bang => [i]
                     | Invoke Generic i, Generic => [i]
                     | _, _ => []
                     end) t.

(** The buffers handed to the socket, in order. *)
Definition sends (t : list event) : list bytes :=
  flat_map (fun e => match e with Send d => [d] | _ => [] end) t.

(** A connected bot that has not run yet. *)
Definition fresh (s : Socket) (i : Identity)
    (fs : list (str * BotFunction)) (gs : list BotFunction) : Bot :=
  {| sock := s; messages := []; ident := i; functions := fs;
     on_privmsg := gs; trace := [] |}.

(** A socket on which the peer delivers [chunks] and every write is taken
    whole. *)
Definition peer (chunks : list bytes) : Socket :=
  {| inbound := chunks; accepts := []; wire := [] |}.

(** ** Vocabulary of the statements *)

(** Any configuration whose trigger is [!]. *)
Definition trigger_is_bang (chan nk un fn : str) (md : Z) : Identity :=
  {| channel := chan; nickname := nk; username := un; mode := md;
     fullname := fn; bang := lit "!" |}.

(** [self] after [sock.send(data)]. *)
Definition after_send (data : bytes) (self : Bot) : Bot :=
  snd (sock_send data self).

(** What the [try] statement around a handler call leaves in [r]. *)
Definition reply_of (o : outcome) : option str :=
  match o with
  | Returns r => r
  | Raises e => Some e
  end.

(** The line that [privmsg] builds. *)
Definition privmsg_line (target : option str) (r : str) : str :=
  lit "PRIVMSG " ++ fmt target ++ lit " " ++ r ++ CRLF.

(** The word after the trigger: [body.split(' ')[0][1:]]. *)
Definition bang_word (body : str) : str :=
  skipn 1 (hd [] (split (lit " ") body)).

(** [self'] is [self] with the events [t] added, and the same
    configuration and handlers. *)
Definition extends (self self' : Bot) (t : list event) : Prop :=
  trace self' = trace self ++ t /\
  ident self' = ident self /\
  functions self' = functions self /\
  on_privmsg self' = on_privmsg self.

(** The loop test of [_read_buffer] fails: the buffer ends with a line
    feed. *)
Definition ends_lf (buf : bytes) : bool :=
  match getlast buf with
  | Ok b => N.eqb (Byte.to_N b) LF
  | _ => false
  end.

(** A chunk that one [recv(1024)] returns whole. *)
Definition one_read (c : bytes) : bool :=
  (0 <? List.length c) && (List.length c <=? 1024).

(** [self] once the socket has delivered all but [rest]. *)
Definition delivered (rest : list bytes) (self : Bot) : Bot :=
  set_sock {| inbound := rest; accepts := accepts (sock self);
              wire := wire (sock self) |} self.

(** A configuration to run the examples with. *)
Definition sample : Identity :=
  {| channel := lit "#chan"; nickname := lit "bot"; username := lit "bot";
     mode := 0; fullname := lit "Bot"; bang := lit "!" |}.

(** The line can be encoded: [send] does not raise on it. *)
Definition encodable (s : str) : bool :=
  match utf8_encode s with
  | Some _ => true
  | None => false
  end.

(** The reply of [f] to [msg], if there is one, can be sent to
    [target]. *)
Definition can_reply (id : Identity) (msg : IRC_Message.t)
    (target : option str) (f : BotFunction) : bool :=
  match reply_of (f id msg) with
  | Some r => encodable (privmsg_line target r)
  | None => true
  end.

(** The events of one handler call that left [r]. *)
Definition call_events (k : kind) (i : nat) (target r : option str)
  : list event :=
  Invoke k i ::
  match r with
  | Some x =>
      match utf8_encode (privmsg_line target x) with
      | Some data => [Send data]
      | None => []
      end
  | None => []
  end.

(** The events of the generic handlers [fs], the first of them at
    position [i]. *)
Fixpoint generic_events (id : Identity) (msg : IRC_Message.t)
    (target : option str) (i : nat) (fs : list BotFunction) : list event :=
  match fs with
  | [] => []
  | f :: fs' =>
      call_events Generic i target (reply_of (f id msg))
      ++ generic_events id msg target (S i) fs'
  end.

(** The events of the registrations [fs] up to the first whose name is
    not [word]. *)
Fixpoint bang_events (id : Identity) (msg : IRC_Message.t)
    (target : option str) (word : str) (i : nat)
    (fs : list (str * BotFunction)) : list event :=
  match fs with
  | [] => []
  | (b, f) :: fs' =>
      if str_eqb word b then
        call_events Bang i target (reply_of (f id msg))
        ++ bang_events id msg target word (S i) fs'
      else []
  end.

(** The events of the bang-commands for a body [c :: body]: none unless
    [c] is the trigger. *)
Definition bang_part (self : Bot) (msg : IRC_Message.t)
    (target : option str) (c : N) (body : str) : list event :=
  if str_eqb [c] (bang (ident self)) then
    bang_events (ident self) msg target (bang_word (c :: body)) 0
      (functions self)
  else [].

(** The reply target that [run] computes. *)
Definition respond_to (msg : IRC_Message.t) (c : N) : option str :=
  if str_eqb [c] (lit "#") then IRC_Message.middle msg
  else IRC_Message.nickname msg.

(** The trailing parameter and the body made of the tokens [rest]. *)
Definition trailing_of (rest : list str) : option str :=
  match rest with
  | [] => None
  | _ :: _ => Some (Py.join (lit " ") rest)
  end.

(** A handler that raises and one that answers. *)
Definition boom : BotFunction :=
  fun _ _ => Raises (lit "ValueError('boom')").

Definition pong_back : BotFunction :=
  fun _ _ => Returns (Some (lit "pong")).

(** The position at which [w.index(x)] finds [x]: that of the first
    element equal to [x]. *)
Fixpoint pos (x : str) (w : list str) : nat :=
  match w with
  | [] => 0
  | y :: w' => if str_eqb y x then 0 else S (pos x w')
  end.

(** The fields that are not [None], in order. *)
Definition present (ws : list (option str)) : list str :=
  flat_map (fun w => match w with Some x => [x] | None => [] end) ws.

(** The nickname that [__init__] reads off a prefix. *)
Definition nickname_of (p : str) : option str :=
  if str_in (lit "!") p
  then Some (skipn 1 (hd [] (split (lit "!") p)))
  else None.

(** The message that [__init__] builds from the tokens [w0 :: w1 :: rest]
    of a line, [w0] not empty. *)
Definition of_tokens (w0 w1 : str) (rest : list str) : IRC_Message.t :=
  let w := w0 :: w1 :: rest in
  let colon := str_eqb (firstn 1 w0) (lit ":") in
  let prefix := if colon then Some w0 else None in
  let command := if colon then w1 else w0 in
  let middle := nth_error w (pos command w + 1) in
  let trailing :=
    match middle with
    | Some m =>
        if pos m w + 1 <? List.length w
        then Some (Py.join (lit " ") (skipn (pos m w + 1) w))
        else None
    | None => None
    end in
  {| IRC_Message.prefix := prefix;
     IRC_Message.nickname :=
       match prefix with Some p => nickname_of p | None => None end;
     IRC_Message.command := Some command;
     IRC_Message.middle := middle;
     IRC_Message.trailing := trailing;
     IRC_Message.message := option_map (skipn 1) trailing |}.

(** The tokens of a line leave no doubt about the positions of the
    command and of the middle parameter: the first token is not empty,
    there are two tokens at least, and neither the command nor the middle
    parameter repeats a token before it. *)
Definition unambiguous (w : list str) : bool :=
  match w with
  | w0 :: w1 :: rest =>
      if str_eqb (firstn 1 w0) (lit ":") then
        negb (str_eqb w0 w1) &&
        match rest with
        | [] => true
        | m :: _ => negb (str_eqb w0 m) && negb (str_eqb w1 m)
        end
      else
        negb (str_eqb w0 []) && negb (str_eqb w0 w1)
  | _ => false
  end.

(** [self'] is [self] but for what was taken from the socket and for the
    messages kept: nothing was sent or printed, no handler was called and
    the configuration is the same. *)
Definition input_only (self self' : Bot) : Prop :=
  trace self' = trace self /\
  wire (sock self') = wire (sock self) /\
  accepts (sock self') = accepts (sock self) /\
  ident self' = ident self /\
  functions self' = functions self /\
  on_privmsg self' = on_privmsg self.

(** [self'] is [self] but for what was sent and logged: the
    configuration, the handlers, the messages kept and the input still
    to be read are the same, and the trace and the bytes on the wire have
    only grown. *)
Definition output_only (self self' : Bot) : Prop :=
  ident self' = ident self /\
  functions self' = functions self /\
  on_privmsg self' = on_privmsg self /\
  messages self' = messages self /\
  inbound (sock self') = inbound (sock self) /\
  (exists t, trace self' = trace self ++ t) /\
  (exists bs, wire (sock self') = wire (sock self) ++ bs).

(** The method [m] only sends and logs, however it ends. *)
Definition sends_only {A} (m : M A) : Prop :=
  forall self, output_only self (snd (m self)).

(** The number of registrations at the head of [fs] that bear the name
    [word]. *)
Fixpoint leading (word : str) (fs : list (str * BotFunction)) : nat :=
  match fs with
  | [] => 0
  | (b, _) :: fs' => if str_eqb word b then S (leading word fs') else 0
  end.

(** [Bot(address, port, channel, nickname, username, mode, fullname, bang,
    functions, on_privmsg)] once [connect()] has given it the socket [s];
    [None] for [username], [fullname], [functions] and [on_privmsg] is
    the default of the constructor. *)
Definition Bot_init (s : Socket) (channel' nickname' : str)
    (username' : option str) (mode' : Z) (fullname' : option str)
    (bang' : str) (functions' : option (list (str * BotFunction)))
    (on_privmsg' : option (list BotFunction)) : Bot :=
  {| sock := s;
     messages := [];
     ident :=
       {| channel := channel';
          nickname := nickname';
          username := match username' with
                      | None => nickname'
                      | Some u => u
                      end;
          mode := mode';
          fullname := match fullname' with
                      | None => nickname'
                      | Some f => f
                      end;
          bang := bang' |};
     functions := match functions' with None => [] | Some fs => fs end;
     on_privmsg := match on_privmsg' with None => [] | Some gs => gs end;
     trace := [] |}.

(** A handler whose reply is a lone surrogate, which UTF-8 cannot
    encode. *)
Definition lone_surrogate : BotFunction :=
  fun _ _ => Returns (Some [55296%N]).

(** The handlers that a PRIVMSG of body [c :: body] calls: the
    registrations at the head of [functions] that bear the word after
    the trigger, if the body begins with the trigger, then every generic
    handler. *)
Definition called (self : Bot) (c : N) (body : str) : list BotFunction :=
  (if str_eqb [c] (bang (ident self)) then
     map snd (firstn (leading (bang_word (c :: body)) (functions self))
                (functions self))
   else [])
  ++ on_privmsg self.

(** The buffer that the reply [r] of a handler makes [privmsg] send to
    [target], if there is a reply and it can be encoded. *)
Definition reply_buffer (target r : option str) : list bytes :=
  match r with
  | Some x =>
      match utf8_encode (privmsg_line target x) with
      | Some data => [data]
      | None => []
      end
  | None => []
  end.

(** What the loop body of [run] does with a message once it is
    printed. *)
Definition route (msg : IRC_Message.t) : M unit :=
  self <- get ;;
  match IRC_Message.command msg with
  | None => ret tt
  | Some cmd =>
      if str_eqb cmd (lit "PING") then pong (IRC_Message.middle msg)
      else if str_eqb cmd (lit "001") then join (channel (ident self))
      else if str_eqb cmd (lit "PRIVMSG") then
        mid <- lift (not_none TypeError (IRC_Message.middle msg)) ;;
        c <- lift (getitem mid 0) ;;
        let respond_to :=
          if str_eqb [c] (lit "#") then IRC_Message.middle msg
          else IRC_Message.nickname msg in
        _ <- __call_function msg respond_to ;;
        __call_on_privmsg msg respond_to
      else ret tt
  end.

(** A PING to run after another message. *)
Definition ping_abc : IRC_Message.t :=
  {| IRC_Message.prefix := None;
     IRC_Message.nickname := None;
     IRC_Message.command := Some (lit "PING");
     IRC_Message.middle := Some (lit ":abc");
     IRC_Message.trailing := None;
     IRC_Message.message := None |}.

(** A private message from a server: its prefix has no [!], so that it
    has no nickname. *)
Definition notice_from_server : IRC_Message.t :=
  {| IRC_Message.prefix := Some (lit ":irc.example.org");
     IRC_Message.nickname := None;
     IRC_Message.command := Some (lit "PRIVMSG");
     IRC_Message.middle := Some (lit "bot");
     IRC_Message.trailing := Some (lit ":hello");
     IRC_Message.message := Some (lit "hello") |}.

(** ** Basic facts *)

Lemma str_eqb_refl (a : str) : str_eqb a a = true.
Proof.
  induction a as [|x a IH]; simpl; [reflexivity|].
  now rewrite N.eqb_refl, IH.
Qed.

Lemma str_eqb_eq (a b : str) : str_eqb a b = true <-> a = b.
Proof.
  split.
  - revert b; induction a as [|x a IH]; intros [|y b]; simpl;
      try discriminate; [reflexivity|].
    intros H; apply andb_true_iff in H as [Hx Hab].
    apply N.eqb_eq in Hx; subst; f_equal; now apply IH.
  - intros ->; apply str_eqb_refl.
Qed.

Lemma str_eqb_neq (a b : str) : str_eqb a b = false <-> a <> b.
Proof.
  rewrite <- str_eqb_eq; destruct (str_eqb a b); split;
    congruence.
Qed.

Lemma split_go_not_nil (sep : str) (s : str) :
  forall skip cur, split_go sep skip cur s <> [].
Proof.
  induction s as [|c s IH]; intros skip cur; simpl; [discriminate|].
  destruct skip; [|apply IH].
  destruct (startswith sep (c :: s)); [discriminate|apply IH].
Qed.

(** A split always has a first piece. *)
Lemma split_first (sep s : str) :
  getitem (split sep s) 0 = Ok (hd [] (split sep s)).
Proof.
  unfold split; pose proof (split_go_not_nil sep s 0 []) as H.
  destruct (split_go sep 0 [] s); [congruence|reflexivity].
Qed.

Lemma sends_app (t u : list event) : sends (t ++ u) = sends t ++ sends u.
Proof. apply flat_map_app. Qed.

Lemma invoked_app (k : kind) (t u : list event) :
  invoked k (t ++ u) = invoked k t ++ invoked k u.
Proof. apply flat_map_app. Qed.

(** ** The parser *)

(** C9: the line [:nick!user@host PRIVMSG #chan :hello world] is parsed
    into the prefix [:nick!user@host], the nickname [nick], the command
    [PRIVMSG], the middle parameter [#chan], the trailing parameter
    [:hello world] and the message body [hello world]. *)
Theorem parse_privmsg_example :
  IRC_Message.__init__ (lit ":nick!user@host PRIVMSG #chan :hello world") =
  Ok {| IRC_Message.prefix := Some (lit ":nick!user@host");
        IRC_Message.nickname := Some (lit "nick");
        IRC_Message.command := Some (lit "PRIVMSG");
        IRC_Message.middle := Some (lit "#chan");
        IRC_Message.trailing := Some (lit ":hello world");
        IRC_Message.message := Some (lit "hello world") |}.
Proof. vm_compute. reflexivity. Qed.

(** A line of fewer than two tokens leaves every field [None]. *)
Lemma parse_short_line (line : str) :
  List.length (split (lit " ") line) < 2 ->
  IRC_Message.__init__ line = Ok IRC_Message.absent.
Proof.
  intros H; unfold IRC_Message.__init__.
  assert (E : (1 <? List.length (split (lit " ") line)) = false)
    by (apply Nat.ltb_ge; lia).
  rewrite E; reflexivity.
Qed.

(** A message without a command is printed and nothing else is done. *)
Lemma dispatch_absent (self : Bot) :
  dispatch IRC_Message.absent self = (Ok tt, log (Stdout []) self).
Proof. reflexivity. Qed.

(** C10: a line that splits into fewer than two tokens is parsed into the
    message whose six fields are all absent, and the loop body of [run]
    does nothing with such a message but print it: no reply is sent, no
    handler is called, no exception is raised and the socket and the
    configuration are left as they were. *)
Theorem short_line_is_ignored :
  forall line : str,
    List.length (split (lit " ") line) < 2 ->
    IRC_Message.__init__ line = Ok IRC_Message.absent /\
    forall self : Bot,
    exists self' : Bot,
      dispatch IRC_Message.absent self = (Ok tt, self') /\
      handle_line line self = (Ok tt, self') /\
      sends (trace self') = sends (trace self) /\
      (forall k, invoked k (trace self') = invoked k (trace self)) /\
      sock self' = sock self /\
      ident self' = ident self.
Proof.
  intros line H; split; [now apply parse_short_line|].
  intros self; exists (log (Stdout []) self).
  split; [apply dispatch_absent|].
  split.
  - unfold handle_line, bind, lift.
    rewrite (parse_short_line _ H); apply dispatch_absent.
  - cbn [log trace sock ident].
    rewrite sends_app. split; [cbn; apply app_nil_r|].
    split; [|split; reflexivity].
    intros k; rewrite invoked_app; destruct k; cbn; apply app_nil_r.
Qed.

(** The single-token line [NOOP]. *)
Lemma short_line_is_ignored_witness :
  List.length (split (lit " ") (lit "NOOP")) < 2 /\
  IRC_Message.__init__ (lit "NOOP") = Ok IRC_Message.absent /\
  forall self : Bot,
  exists self' : Bot,
    dispatch IRC_Message.absent self = (Ok tt, self') /\
    handle_line (lit "NOOP") self = (Ok tt, self') /\
    sends (trace self') = sends (trace self) /\
    (forall k, invoked k (trace self') = invoked k (trace self)) /\
    sock self' = sock self /\
    ident self' = ident self.
Proof.
  split; [vm_compute; lia|].
  apply (short_line_is_ignored (lit "NOOP")); vm_compute; lia.
Defined.

(** C6, where the code departs from it: [w.index] finds the first token
    equal to its argument, not the position the token was taken from.  In
    [:nick!user@host PRIVMSG PRIVMSG :hi] the middle parameter equals the
    command, and the trailing parameter is taken from the command's
    position on: it is [PRIVMSG :hi] instead of [:hi].  In [:a :a b c] the
    command equals the prefix, and the middle parameter is the command
    itself instead of [b]. *)
Theorem parse_repeated_token :
  IRC_Message.__init__ (lit ":nick!user@host PRIVMSG PRIVMSG :hi") =
  Ok {| IRC_Message.prefix := Some (lit ":nick!user@host");
        IRC_Message.nickname := Some (lit "nick");
        IRC_Message.command := Some (lit "PRIVMSG");
        IRC_Message.middle := Some (lit "PRIVMSG");
        IRC_Message.trailing := Some (lit "PRIVMSG :hi");
        IRC_Message.message := Some (lit "RIVMSG :hi") |} /\
  IRC_Message.__init__ (lit ":a :a b c") =
  Ok {| IRC_Message.prefix := Some (lit ":a");
        IRC_Message.nickname := None;
        IRC_Message.command := Some (lit ":a");
        IRC_Message.middle := Some (lit ":a");
        IRC_Message.trailing := Some (lit ":a b c");
        IRC_Message.message := Some (lit "a b c") |}.
Proof. split; vm_compute; reflexivity. Qed.

(** ** Sending *)

Lemma send_encoded (s : str) (data : bytes) (self : Bot) :
  utf8_encode s = Some data ->
  send s self = (Ok tt, after_send data self).
Proof.
  intros H; unfold send, bind, lift; rewrite H; reflexivity.
Qed.

Lemma send_unencodable (s : str) (self : Bot) :
  utf8_encode s = None ->
  send s self = (Raise UnicodeEncodeError, self).
Proof.
  intros H; unfold send, bind, lift; rewrite H; reflexivity.
Qed.

Lemma trace_after_send (data : bytes) (self : Bot) :
  trace (after_send data self) = trace self ++ [Send data].
Proof. reflexivity. Qed.

Lemma utf8_encode_app (a b : str) :
  utf8_encode (a ++ b) =
  match utf8_encode a, utf8_encode b with
  | Some x, Some y => Some (x ++ y)
  | _, _ => None
  end.
Proof.
  induction a as [|c a IH]; simpl.
  - destruct (utf8_encode b); reflexivity.
  - rewrite IH.
    destruct (encode_cp c), (utf8_encode a), (utf8_encode b);
      try reflexivity.
    now rewrite app_assoc.
Qed.

(** *** The codec: what is encoded decodes to itself *)

Ltac div_lia := zify; Z.to_euclidean_division_equations; lia.

Ltac decide_tests :=
  repeat match goal with
         | |- context [N.ltb ?a ?b] =>
             destruct (N.ltb_spec a b); try div_lia
         | |- context [N.leb ?a ?b] =>
             destruct (N.leb_spec a b); try div_lia
         end.

Ltac take_encoding :=
  let E := fresh "E" in
  intros E;
  match type of E with
  | Some ?l = Some ?enc => assert (enc = l) by congruence; subst enc; clear E
  end.

Lemma to_N_byte_of (n : N) : (n < 256)%N -> Byte.to_N (byte_of n) = n.
Proof.
  intros H; unfold byte_of; rewrite N.mod_small by exact H.
  destruct (Byte.of_N n) as [b|] eqn:E.
  - now apply Byte.to_of_N.
  - apply Byte.of_N_None_iff in E; lia.
Qed.

Lemma decode_encode_cp (c : N) (enc : bytes) (rest : bytes) :
  encode_cp c = Some enc ->
  decode_go 0 0 0 (enc ++ rest) = option_map (cons c) (decode_go 0 0 0 rest).
Proof.
  unfold encode_cp.
  destruct (N.ltb_spec c 128); [|destruct (N.ltb_spec c 2048);
    [|destruct (N.ltb_spec c 65536); [|destruct (N.ltb_spec c 1114112)]]].
  - take_encoding; cbn [app decode_go].
    rewrite to_N_byte_of by lia. decide_tests. reflexivity.
  - take_encoding; cbn [app decode_go]; unfold is_cont, low6.
    rewrite !to_N_byte_of by div_lia. decide_tests. cbn [andb orb].
    f_equal. f_equal. div_lia.
  - destruct (N.leb_spec 55296 c); destruct (N.leb_spec c 57343);
      cbn [andb]; try discriminate.
    all: take_encoding; cbn [app decode_go]; unfold is_cont, low6.
    all: rewrite !to_N_byte_of by div_lia; decide_tests; cbn [andb orb].
    all: f_equal; f_equal; div_lia.
  - take_encoding; cbn [app decode_go]; unfold is_cont, low6.
    rewrite !to_N_byte_of by div_lia. decide_tests. cbn [andb orb].
    f_equal. f_equal. div_lia.
  - discriminate.
Qed.

(** Whatever [encode] accepts, [decode] gives back. *)
Lemma utf8_round_trip (s : str) (data : bytes) :
  utf8_encode s = Some data -> utf8_decode data = Some s.
Proof.
  revert data; induction s as [|c s IH]; intros data.
  - intros [= <-]; reflexivity.
  - cbn [utf8_encode].
    destruct (encode_cp c) as [x|] eqn:Ec; [|discriminate].
    destruct (utf8_encode s) as [y|]; [|discriminate].
    intros [= <-]; unfold utf8_decode.
    rewrite (decode_encode_cp _ _ Ec).
    fold (utf8_decode y); now rewrite (IH y eq_refl).
Qed.

(** The four helpers that end their line: each hands [send] its template
    followed by CR LF. *)
Lemma pong_sends (s : option str) (data : bytes) (self : Bot) :
  utf8_encode (lit "PONG " ++ fmt s ++ CRLF) = Some data ->
  pong s self = (Ok tt, after_send data self).
Proof. apply send_encoded. Qed.

Lemma privmsg_sends (c : option str) (m : str) (data : bytes) (self : Bot) :
  utf8_encode (lit "PRIVMSG " ++ fmt c ++ lit " " ++ m ++ CRLF) = Some data ->
  privmsg c m self = (Ok tt, after_send data self).
Proof. apply send_encoded. Qed.

Lemma join_sends (c : str) (data : bytes) (self : Bot) :
  utf8_encode (lit "JOIN " ++ c ++ CRLF) = Some data ->
  join c self = (Ok tt, after_send data self).
Proof. apply send_encoded. Qed.

Lemma nick_sends (n : str) (data : bytes) (self : Bot) :
  utf8_encode (lit "NICK " ++ n ++ CRLF) = Some data ->
  exists self', nick n self = (Ok tt, self') /\
                trace self' = trace self ++ [Send data] /\
                nickname (ident self') = n.
Proof.
  intros H; unfold nick, bind, modify.
  rewrite (send_encoded _ _ H).
  eexists; split; [reflexivity|split; reflexivity].
Qed.

Section Examples.

Variables (chan nk un fn : str) (md : Z).

Local Notation "'me'" := (trigger_is_bang chan nk un fn md).

(** C3, where the code departs from it: [user] stores the three values
    and hands [send] the template [USER <user> <mode> * :<realname>]
    alone; unlike [pong], [privmsg], [nick] and [join] it appends no
    CR LF.  With the user name [bot], the mode [0] and the real name
    [Bot] the bytes given to the socket are those of [USER bot 0 * :Bot],
    the last of them the letter [t]; the lines of the four other helpers
    end with CR LF. *)
Theorem user_line_is_not_terminated :
  forall (s : Socket) fs gs,
    let self := fresh s me fs gs in
    (exists self',
       user (lit "bot") 0 (lit "Bot") self = (Ok tt, self') /\
       trace self' = [Send (blit "USER bot 0 * :Bot")] /\
       username (ident self') = lit "bot" /\
       mode (ident self') = 0%Z /\
       fullname (ident self') = lit "Bot") /\
    sends (trace (snd (pong (Some (lit ":abc")) self)))
      = [blit "PONG :abc" ++ [x0d; x0a]] /\
    sends (trace (snd (privmsg (Some (lit "#chan")) (lit "hi") self)))
      = [blit "PRIVMSG #chan hi" ++ [x0d; x0a]] /\
    sends (trace (snd (nick (lit "bot") self)))
      = [blit "NICK bot" ++ [x0d; x0a]] /\
    sends (trace (snd (join (lit "#chan") self)))
      = [blit "JOIN #chan" ++ [x0d; x0a]].
Proof.
  intros s fs gs self; split.
  - eexists; split; [cbv; reflexivity|].
    repeat split.
  - repeat split.
Qed.

(** C4, where the code departs from it: [send] calls the socket's
    [send] once and drops its result.  When the kernel takes four bytes
    of the twelve of [JOIN #chan] CR LF, only [JOIN] leaves and the call
    returns as if all had been sent. *)
Theorem send_is_one_write :
  forall fs gs,
    let s := {| inbound := []; accepts := [4]; wire := [] |} in
    let self := fresh s me fs gs in
    utf8_encode (lit "JOIN #chan" ++ CRLF) =
      Some (blit "JOIN #chan" ++ [x0d; x0a]) /\
    exists self',
      send (lit "JOIN #chan" ++ CRLF) self = (Ok tt, self') /\
      sends (trace self') = [blit "JOIN #chan" ++ [x0d; x0a]] /\
      wire (sock self') = blit "JOIN".
Proof.
  intros fs gs s self; split; [reflexivity|].
  eexists; split; [cbv; reflexivity|split; reflexivity].
Qed.

End Examples.

(** ** The two handler loops, one step at a time *)

Lemma extends_refl (self : Bot) : extends self self [].
Proof. repeat split; cbn; now rewrite app_nil_r. Qed.

Lemma extends_trans (a b c : Bot) (t u : list event) :
  extends a b t -> extends b c u -> extends a c (t ++ u).
Proof.
  intros (Ht & Hi & Hf & Hg) (Ht' & Hi' & Hf' & Hg').
  repeat split; try congruence.
  now rewrite Ht', Ht, app_assoc.
Qed.

Lemma extends_log (e : event) (self : Bot) : extends self (log e self) [e].
Proof. repeat split. Qed.

Lemma extends_after_send (data : bytes) (self : Bot) :
  extends self (after_send data self) [Send data].
Proof. repeat split. Qed.

Lemma call_eq (k : kind) (i : nat) (f : BotFunction) (msg : IRC_Message.t)
    (self : Bot) :
  call k i f msg self =
  (Ok (reply_of (f (ident self) msg)), log (Invoke k i) self).
Proof.
  unfold call, bind, get, modify.
  destruct (f (ident self) msg); reflexivity.
Qed.

(** A reply either leaves as one buffer or fails in [encode] before the
    socket is touched. *)
Lemma reply_cases (target r : option str) (self : Bot) :
  (r = None /\ reply target r self = (Ok tt, self)) \/
  (exists x data, r = Some x /\
     utf8_encode (privmsg_line target x) = Some data /\
     reply target r self = (Ok tt, after_send data self)) \/
  (exists x, r = Some x /\
     utf8_encode (privmsg_line target x) = None /\
     reply target r self = (Raise UnicodeEncodeError, self)).
Proof.
  destruct r as [x|]; [|left; split; reflexivity].
  right; unfold reply, privmsg.
  fold (privmsg_line target x).
  destruct (utf8_encode (privmsg_line target x)) as [data|] eqn:E.
  - left; exists x, data; repeat split; [exact E|now apply send_encoded].
  - right; exists x; repeat split; [exact E|now apply send_unencodable].
Qed.

(** However a reply ends, it calls no handler. *)
Lemma reply_extends (target r : option str) (self : Bot) :
  exists t, extends self (snd (reply target r self)) t /\
            forall k, invoked k t = [].
Proof.
  destruct (reply_cases target r self)
    as [[_ E]|[(x & data & _ & _ & E)|(x & _ & _ & E)]]; rewrite E; cbn [snd].
  - exists []; split; [apply extends_refl|reflexivity].
  - exists [Send data]; split; [apply extends_after_send|].
    intros []; reflexivity.
  - exists []; split; [apply extends_refl|reflexivity].
Qed.

Section Loops.

Variables (msg : IRC_Message.t) (target : option str).

(** A registration that does not bear the word ends the loop. *)
Lemma call_function_loop_mismatch body b f fs i self :
  IRC_Message.message msg = Some body ->
  bang_word body <> b ->
  call_function_loop msg target i ((b, f) :: fs) self = (Ok tt, self).
Proof.
  intros Hb Hne; cbn [call_function_loop]; unfold bind, lift.
  rewrite Hb; cbn [not_none]; rewrite split_first.
  fold (bang_word body).
  apply str_eqb_neq in Hne; rewrite Hne; reflexivity.
Qed.

(** A registration that bears the word is called, its reply is sent and
    the loop goes on. *)
Lemma call_function_loop_match body b f fs i self :
  IRC_Message.message msg = Some body ->
  bang_word body = b ->
  call_function_loop msg target i ((b, f) :: fs) self =
  (_ <- reply target (reply_of (f (ident self) msg)) ;;
   call_function_loop msg target (S i) fs) (log (Invoke Bang i) self).
Proof.
  intros Hb <-; cbn [call_function_loop]; unfold bind at 1 2, lift.
  rewrite Hb; cbn [not_none]; rewrite split_first.
  fold (bang_word body); rewrite str_eqb_refl; cbn [negb].
  unfold bind at 1; rewrite call_eq; reflexivity.
Qed.

Lemma call_on_privmsg_loop_step f fs i self :
  call_on_privmsg_loop msg target i (f :: fs) self =
  (_ <- reply target (reply_of (f (ident self) msg)) ;;
   call_on_privmsg_loop msg target (S i) fs) (log (Invoke Generic i) self).
Proof.
  cbn [call_on_privmsg_loop]; unfold bind at 1; rewrite call_eq.
  reflexivity.
Qed.

(** A body that does not start with the trigger calls no bang-command. *)
Lemma call_function_no_trigger c body self :
  IRC_Message.message msg = Some (c :: body) ->
  [c] <> bang (ident self) ->
  __call_function msg target self = (Ok tt, self).
Proof.
  intros Hb Hne; unfold __call_function, bind, get, lift.
  rewrite Hb; cbn [not_none getitem nth_error].
  apply str_eqb_neq in Hne; rewrite Hne; reflexivity.
Qed.

Lemma call_function_trigger c body self :
  IRC_Message.message msg = Some (c :: body) ->
  [c] = bang (ident self) ->
  __call_function msg target self =
  call_function_loop msg target 0 (functions self) self.
Proof.
  intros Hb He; unfold __call_function, bind, get, lift.
  rewrite Hb; cbn [not_none getitem nth_error].
  rewrite <- He, str_eqb_refl; reflexivity.
Qed.

End Loops.

(** What [dispatch] does with a PRIVMSG whose middle parameter is not
    empty. *)
Lemma dispatch_privmsg (msg : IRC_Message.t) (c : N) (mid : str) (self : Bot) :
  IRC_Message.command msg = Some (lit "PRIVMSG") ->
  IRC_Message.middle msg = Some (c :: mid) ->
  let target := if str_eqb [c] (lit "#") then IRC_Message.middle msg
                else IRC_Message.nickname msg in
  dispatch msg self =
  (_ <- __call_function msg target ;; __call_on_privmsg msg target)
    (log (Stdout (IRC_Message.__str__ msg)) self).
Proof.
  intros Hc Hm target; subst target; unfold dispatch.
  unfold bind at 1, modify. unfold bind at 1, get.
  rewrite Hc, Hm.
  change (str_eqb (lit "PRIVMSG") (lit "PING")) with false.
  change (str_eqb (lit "PRIVMSG") (lit "001")) with false.
  change (str_eqb (lit "PRIVMSG") (lit "PRIVMSG")) with true.
  cbv iota. unfold bind at 1, lift at 1. cbn [not_none].
  unfold bind at 1, lift at 1. cbn [getitem nth_error].
  reflexivity.
Qed.

Lemma call_on_privmsg_none (msg : IRC_Message.t) (target : option str)
    (self : Bot) :
  on_privmsg self = [] ->
  __call_on_privmsg msg target self = (Ok tt, self).
Proof.
  intros H; unfold __call_on_privmsg, bind, get; rewrite H; reflexivity.
Qed.

Section Dispatch_examples.

Variables (chan nk un fn : str) (md : Z).

Local Notation "'me'" := (trigger_is_bang chan nk un fn md).
Local Notation "'self0'" := (fresh (peer []) me).

(** C1, where the code departs from it: the loop of [__call_function]
    returns at the first registration whose name differs from the word
    after the trigger, so the registrations behind it are never looked
    at.  With [foo] registered before [bar] and the trigger [!], the
    body [!bar x] is printed and that is all: no handler is called and
    nothing is sent.  With [bar] registered first, the handler of [bar]
    is called. *)
Theorem bang_dispatch_stops_at_first_mismatch :
  forall h1 h2 : BotFunction,
    let line := lit ":nick!user@host PRIVMSG #chan :!bar x" in
    let foo_bar := self0 [(lit "foo", h1); (lit "bar", h2)] [] in
    let bar_foo := self0 [(lit "bar", h2); (lit "foo", h1)] [] in
    handle_line line foo_bar = (Ok tt, log (Stdout line) foo_bar) /\
    invoked Bang (trace (snd (handle_line line foo_bar))) = [] /\
    invoked Bang (trace (snd (handle_line line bar_foo))) = [0].
Proof.
  intros h1 h2 line foo_bar bar_foo.
  set (msg := {| IRC_Message.prefix := Some (lit ":nick!user@host");
                 IRC_Message.nickname := Some (lit "nick");
                 IRC_Message.command := Some (lit "PRIVMSG");
                 IRC_Message.middle := Some (lit "#chan");
                 IRC_Message.trailing := Some (lit ":!bar x");
                 IRC_Message.message := Some (lit "!bar x") |}).
  assert (Hp : IRC_Message.__init__ line = Ok msg)
    by (vm_compute; reflexivity).
  assert (Hd : forall self,
             bang (ident self) = lit "!" ->
             handle_line line self =
             (_ <- call_function_loop msg (Some (lit "#chan")) 0
                     (functions self) ;;
              __call_on_privmsg msg (Some (lit "#chan")))
               (log (Stdout line) self)).
  { intros self Hbang. unfold handle_line, bind at 1, lift at 1.
    rewrite Hp.
    rewrite (@dispatch_privmsg msg 35%N (lit "chan") self eq_refl eq_refl).
    change (IRC_Message.__str__ msg) with line.
    unfold bind.
    rewrite (@call_function_trigger msg _ 33%N (lit "bar x"));
      [reflexivity|reflexivity|].
    cbn [log ident]; now rewrite Hbang. }
  assert (Hfoo : handle_line line foo_bar = (Ok tt, log (Stdout line) foo_bar)).
  { rewrite Hd by reflexivity. unfold bind.
    cbn [functions log foo_bar fresh].
    rewrite (@call_function_loop_mismatch msg _ (lit "!bar x"));
      [|reflexivity|vm_compute; discriminate].
    now apply call_on_privmsg_none. }
  split; [exact Hfoo|split; [now rewrite Hfoo|]].
  rewrite Hd by reflexivity. unfold bind at 1.
  cbn [functions log bar_foo fresh].
  rewrite (@call_function_loop_match msg _ (lit "!bar x"));
    [|reflexivity|reflexivity].
  unfold bind at 1.
  set (self1 := log (Invoke Bang 0) _).
  destruct (reply_extends (Some (lit "#chan"))
              (reply_of (h2 (ident self1) msg)) self1)
    as (t & (Ht & _ & _ & Hg) & Hinv).
  destruct (reply _ _ self1) as [[[]|e|] self2]; cbn [snd] in *.
  - rewrite (@call_function_loop_mismatch msg _ (lit "!bar x"));
      [|reflexivity|vm_compute; discriminate].
    rewrite call_on_privmsg_none by (rewrite Hg; reflexivity).
    cbn [snd]; rewrite Ht, invoked_app, Hinv; reflexivity.
  - rewrite Ht, invoked_app, Hinv; reflexivity.
  - rewrite Ht, invoked_app, Hinv; reflexivity.
Qed.

(** C2, where the code departs from it: [run] subscripts [msg.middle]
    and [__call_function] subscripts [msg.message] without testing them,
    and the parser subscripts the first token.  A PRIVMSG without a
    middle parameter raises [TypeError], one whose middle parameter is
    the empty token raises [IndexError], one without a trailing
    parameter raises [TypeError], one whose body is empty raises
    [IndexError], and a line that begins with a space raises
    [IndexError] in the parser.  Raised inside [run], the exception
    leaves it and the lines behind the faulty one are not looked at. *)
Theorem malformed_privmsg_raises :
  forall (self : Bot) fs gs,
    fst (handle_line (lit ":srv PRIVMSG") self) = Raise TypeError /\
    fst (handle_line (lit "PRIVMSG  :hi") self) = Raise IndexError /\
    fst (handle_line (lit "PRIVMSG #chan") self) = Raise TypeError /\
    fst (handle_line (lit ":n!u@h PRIVMSG #chan :") self) = Raise IndexError /\
    fst (handle_line (lit " PING x") self) = Raise IndexError /\
    let lines := blit "PRIVMSG #chan" ++ [x0d; x0a]
                 ++ blit "PING :abc" ++ [x0d; x0a] in
    forall fuel,
      fst (run fuel (fresh (peer [lines]) me fs gs))
        = Raise TypeError /\
      sends (trace (snd
        (run fuel (fresh (peer [lines]) me fs gs)))) = [].
Proof.
  intros self fs gs.
  repeat split; try reflexivity.
  all: destruct fuel; reflexivity.
Qed.

End Dispatch_examples.

(** ** Reading *)



Lemma one_read_spec (c : bytes) :
  one_read c = true -> c <> [] /\ List.length c <= 1024.
Proof.
  unfold one_read; intros H; apply andb_true_iff in H as [H1 H2].
  apply Nat.ltb_lt in H1; apply Nat.leb_le in H2.
  split; [intros ->; cbn in H1; lia|exact H2].
Qed.

Lemma recv_closed (n : nat) (self : Bot) :
  inbound (sock self) = [] -> recv n self = (Ok [], self).
Proof. intros H; unfold recv; rewrite H; reflexivity. Qed.

Lemma recv_chunk (c : bytes) (rest : list bytes) (self : Bot) :
  inbound (sock self) = c :: rest ->
  one_read c = true ->
  recv 1024 self = (Ok c, delivered rest self).
Proof.
  intros H Hc; apply one_read_spec in Hc as [_ Hlen].
  unfold recv; rewrite H.
  rewrite firstn_all2, skipn_all2 by exact Hlen; reflexivity.
Qed.

Lemma not_ends_lf (buf : bytes) :
  buf <> [] -> ends_lf buf = false ->
  exists b, getlast buf = Ok b /\ N.eqb (Byte.to_N b) LF = false.
Proof.
  unfold ends_lf, getlast; intros Hbuf Hlf.
  destruct (rev buf) as [|b r] eqn:R.
  - apply (f_equal (@rev byte)) in R; rewrite rev_involutive in R.
    contradiction.
  - exists b; split; [reflexivity|exact Hlf].
Qed.

(** One turn of the loop on a buffer that does not end with a line
    feed. *)
Lemma read_loop_turn (fuel : nat) (buf : bytes) (self : Bot) :
  buf <> [] -> ends_lf buf = false ->
  read_loop (S fuel) buf self =
  (chunk <- recv 1024 ;; read_loop fuel (buf ++ chunk)) self.
Proof.
  intros Hbuf Hlf; destruct (not_ends_lf Hbuf Hlf) as (b & E & Hb).
  cbn [read_loop]; unfold bind at 1, lift at 1; rewrite E, Hb; reflexivity.
Qed.

Lemma read_loop_out_of_fuel (buf : bytes) (self : Bot) :
  buf <> [] -> ends_lf buf = false ->
  read_loop 0 buf self = (OutOfFuel, self).
Proof.
  intros Hbuf Hlf; destruct (not_ends_lf Hbuf Hlf) as (b & E & Hb).
  cbn [read_loop]; unfold bind, lift; rewrite E, Hb; reflexivity.
Qed.

(** Once the peer has closed, a buffer that does not end with a line feed
    keeps the loop turning: no amount of fuel lets it return. *)
Lemma read_loop_closed (buf : bytes) (self : Bot) :
  inbound (sock self) = [] ->
  buf <> [] ->
  ends_lf buf = false ->
  forall fuel, read_loop fuel buf self = (OutOfFuel, self).
Proof.
  intros Hin Hbuf Hlf fuel; induction fuel as [|fuel IH].
  - now apply read_loop_out_of_fuel.
  - rewrite read_loop_turn by assumption; unfold bind.
    rewrite (recv_closed _ _ Hin), app_nil_r; exact IH.
Qed.

(** The loop stops as soon as the buffer ends with a line feed. *)
Lemma read_loop_done (fuel : nat) (buf : bytes) (self : Bot) :
  ends_lf buf = true -> read_loop fuel buf self = (Ok buf, self).
Proof.
  intros Hlf; unfold ends_lf in Hlf.
  destruct (getlast buf) as [b|e|] eqn:E; try discriminate.
  destruct fuel; cbn [read_loop]; unfold bind, lift; rewrite E, Hlf;
    reflexivity.
Qed.


(** *** Splitting on CR LF *)




(** [_read_buffer] when the first read returns nothing: the peer has
    closed, and the result is [None]. *)
Lemma read_buffer_eof (fuel : nat) (self : Bot) :
  inbound (sock self) = [] ->
  _read_buffer fuel self = (Ok None, self).
Proof.
  intros H; unfold _read_buffer, bind; rewrite (recv_closed _ _ H).
  reflexivity.
Qed.

(** C7, where the code departs from it.  When the first read returns zero
    bytes, [_read_buffer] returns [None] and [read] leaves no message: so
    far the claim holds.  The loop that follows a first read does not
    test for zero bytes: when the peer closes after [PING] has arrived
    without a line feed, each further read adds nothing to the buffer and
    the test of the loop stays true, so that [_read_buffer], [read] and
    [run] do not return, whatever the fuel. *)
Theorem read_after_close :
  forall (i : Identity) fs gs (fuel : nat),
    let closed := fresh (peer []) i fs gs in
    let partial := fresh (peer [blit "PING"]) i fs gs in
    _read_buffer fuel closed = (Ok None, closed) /\
    read fuel closed = (Ok tt, closed) /\
    messages (snd (read fuel closed)) = [] /\
    _read_buffer fuel partial = (OutOfFuel, closed) /\
    read fuel partial = (OutOfFuel, closed) /\
    run fuel partial = (OutOfFuel, closed).
Proof.
  intros i fs gs fuel closed partial.
  assert (Hc : _read_buffer fuel closed = (Ok None, closed))
    by (now apply read_buffer_eof).
  assert (Hp : _read_buffer fuel partial = (OutOfFuel, closed)).
  { unfold _read_buffer, bind at 1.
    rewrite (@recv_chunk (blit "PING") [] partial eq_refl eq_refl).
    change (List.length (blit "PING") <? 1) with false; cbv iota.
    unfold bind at 1.
    change (delivered [] partial) with closed.
    now rewrite read_loop_closed. }
  assert (Hr : read fuel closed = (Ok tt, closed))
    by (unfold read, bind; rewrite Hc; reflexivity).
  assert (Hrp : read fuel partial = (OutOfFuel, closed))
    by (unfold read, bind; rewrite Hp; reflexivity).
  split; [exact Hc|]. split; [exact Hr|].
  split; [rewrite Hr; reflexivity|].
  split; [exact Hp|]. split; [exact Hrp|].
  unfold run, bind; rewrite Hrp; reflexivity.
Qed.



(** ** Handlers that fail *)

Lemma invoked_call_events (k k' : kind) (i : nat) (target r : option str) :
  invoked k (call_events k' i target r) =
  match k, k' with
  | Bang, Bang | Generic, Generic => [i]
  | _, _ => []
  end.
Proof.
  unfold call_events.
  destruct r as [x|]; [destruct (utf8_encode _)|]; destruct k, k';
    reflexivity.
Qed.

Lemma invoked_generic_events id msg target fs :
  forall i,
    invoked Generic (generic_events id msg target i fs)
      = seq i (List.length fs) /\
    invoked Bang (generic_events id msg target i fs) = [].
Proof.
  induction fs as [|f fs IH]; intros i; [split; reflexivity|].
  cbn [generic_events List.length seq].
  rewrite !invoked_app, !invoked_call_events.
  destruct (IH (S i)) as [-> ->]; split; reflexivity.
Qed.

Lemma invoked_bang_events id msg target word fs :
  forall i, invoked Generic (bang_events id msg target word i fs) = [].
Proof.
  induction fs as [|[b f] fs IH]; intros i; [reflexivity|].
  cbn [bang_events]; destruct (str_eqb word b); [|reflexivity].
  rewrite invoked_app, invoked_call_events, IH; reflexivity.
Qed.

Lemma generic_events_app id msg target pre post :
  forall i,
    generic_events id msg target i (pre ++ post) =
    generic_events id msg target i pre
    ++ generic_events id msg target (List.length pre + i) post.
Proof.
  induction pre as [|f pre IH]; intros i; [reflexivity|].
  cbn [app generic_events List.length].
  rewrite IH, <- app_assoc; do 3 f_equal; lia.
Qed.

Lemma bang_events_app id msg target word pre post :
  Forall (fun bf => fst bf = word) pre ->
  forall i,
    bang_events id msg target word i (pre ++ post) =
    bang_events id msg target word i pre
    ++ bang_events id msg target word (List.length pre + i) post.
Proof.
  induction 1 as [|[b f] pre Hb _ IH]; intros i; [reflexivity|].
  cbn [fst] in Hb; subst b.
  cbn [app bang_events List.length]; rewrite str_eqb_refl.
  rewrite IH, <- app_assoc; do 3 f_equal; lia.
Qed.

(** One handler call and its reply, when the reply can be sent. *)
Lemma call_and_reply k i target r self :
  match r with
  | Some x => encodable (privmsg_line target x)
  | None => true
  end = true ->
  exists self',
    reply target r (log (Invoke k i) self) = (Ok tt, self') /\
    extends self self' (call_events k i target r).
Proof.
  intros Henc; unfold call_events.
  destruct (reply_cases target r (log (Invoke k i) self))
    as [[-> E]|[(x & data & -> & Hd & E)|(x & -> & Hd & E)]].
  - eexists; split; [exact E|apply extends_log].
  - rewrite Hd; eexists; split; [exact E|].
    apply (extends_trans (extends_log _ _) (extends_after_send _ _)).
  - unfold encodable in Henc; rewrite Hd in Henc; discriminate.
Qed.

Section Isolation.

Variables (msg : IRC_Message.t) (target : option str).

(** The generic loop calls every handler, in order, and returns. *)
Lemma call_on_privmsg_loop_events fs :
  forall i self,
    forallb (can_reply (ident self) msg target) fs = true ->
    exists self',
      call_on_privmsg_loop msg target i fs self = (Ok tt, self') /\
      extends self self' (generic_events (ident self) msg target i fs).
Proof.
  induction fs as [|f fs IH]; intros i self Henc.
  - exists self; split; [reflexivity|apply extends_refl].
  - cbn [forallb] in Henc; apply andb_true_iff in Henc as [Hf Henc].
    rewrite call_on_privmsg_loop_step; unfold bind.
    destruct (@call_and_reply Generic i target
                (reply_of (f (ident self) msg)) self Hf)
      as (self1 & -> & Hext).
    pose proof Hext as (_ & Hid & _).
    destruct (IH (S i) self1) as (self' & E & Hext');
      [now rewrite Hid|].
    exists self'; split; [exact E|].
    rewrite Hid in Hext'; apply (extends_trans Hext Hext').
Qed.

(** The bang-command loop calls the registrations up to the first whose
    name is not the word, and returns. *)
Lemma call_function_loop_events body fs :
  IRC_Message.message msg = Some body ->
  forall i self,
    forallb (can_reply (ident self) msg target) (map snd fs) = true ->
    exists self',
      call_function_loop msg target i fs self = (Ok tt, self') /\
      extends self self'
        (bang_events (ident self) msg target (bang_word body) i fs).
Proof.
  intros Hbody; induction fs as [|[b f] fs IH]; intros i self Henc.
  - exists self; split; [reflexivity|apply extends_refl].
  - cbn [bang_events]; destruct (str_eqb (bang_word body) b) eqn:Eb.
    + apply str_eqb_eq in Eb.
      cbn [map forallb snd] in Henc.
      apply andb_true_iff in Henc as [Hf Henc].
      rewrite (@call_function_loop_match msg target body b f fs i self Hbody Eb).
      unfold bind.
      destruct (@call_and_reply Bang i target
                  (reply_of (f (ident self) msg)) self Hf)
        as (self1 & -> & Hext).
      pose proof Hext as (_ & Hid & _).
      destruct (IH (S i) self1) as (self' & E & Hext');
        [now rewrite Hid|].
      exists self'; split; [exact E|].
      rewrite Hid in Hext'; apply (extends_trans Hext Hext').
    + apply str_eqb_neq in Eb.
      rewrite (@call_function_loop_mismatch msg target body b f fs i self Hbody Eb).
      exists self; split; [reflexivity|apply extends_refl].
Qed.

End Isolation.

(** All that [dispatch] does with a PRIVMSG, when the replies can be
    sent. *)
Lemma dispatch_privmsg_events (msg : IRC_Message.t) (c : N) (mid : str)
    (c' : N) (body : str) (self : Bot) :
  IRC_Message.command msg = Some (lit "PRIVMSG") ->
  IRC_Message.middle msg = Some (c :: mid) ->
  IRC_Message.message msg = Some (c' :: body) ->
  let target := respond_to msg c in
  forallb (can_reply (ident self) msg target)
    (map snd (functions self) ++ on_privmsg self) = true ->
  exists self',
    dispatch msg self = (Ok tt, self') /\
    extends self self'
      ([Stdout (IRC_Message.__str__ msg)]
       ++ bang_part self msg target c' body
       ++ generic_events (ident self) msg target 0 (on_privmsg self)).
Proof.
  intros Hc Hm Hb target Henc.
  rewrite forallb_app in Henc; apply andb_true_iff in Henc as [Hfs Hgs].
  rewrite (dispatch_privmsg msg self Hc Hm); fold (respond_to msg c).
  fold target; unfold bind at 1.
  set (self1 := log (Stdout (IRC_Message.__str__ msg)) self).
  assert (H1 : extends self self1 [Stdout (IRC_Message.__str__ msg)])
    by apply extends_log.
  assert (Hbang : exists self2,
             __call_function msg target self1 = (Ok tt, self2) /\
             extends self1 self2 (bang_part self msg target c' body)).
  { unfold bang_part.
    destruct (str_eqb [c'] (bang (ident self))) eqn:Et.
    - apply str_eqb_eq in Et.
      rewrite (@call_function_trigger msg target c' body self1 Hb Et).
      apply (@call_function_loop_events msg target (c' :: body)
               (functions self) Hb 0 self1 Hfs).
    - apply str_eqb_neq in Et.
      rewrite (@call_function_no_trigger msg target c' body self1 Hb Et).
      exists self1; split; [reflexivity|apply extends_refl]. }
  destruct Hbang as (self2 & -> & H2).
  pose proof H2 as (_ & Hid & _ & Hg).
  unfold __call_on_privmsg, bind, get; rewrite Hg.
  destruct (@call_on_privmsg_loop_events msg target (on_privmsg self) 0 self2)
    as (self3 & E & H3); [now rewrite Hid|].
  change (on_privmsg self1) with (on_privmsg self); rewrite E.
  exists self3; split; [reflexivity|].
  rewrite Hid in H3.
  apply (extends_trans H1 (extends_trans H2 H3)).
Qed.

(** ** Further facts about the same functions *)

(** X17: [send] hands the whole encoding to one write of the socket and
    does not look at the count that comes back: whenever the kernel takes
    fewer bytes than it was given, these bytes reach the wire and the
    rest of the line does not. *)
Lemma send_partial (s : str) (data : bytes) (k : nat) (ks : list nat)
    (self : Bot) :
  utf8_encode s = Some data ->
  accepts (sock self) = k :: ks ->
  k < List.length data ->
  exists self',
    send s self = (Ok tt, self') /\
    wire (sock self') = wire (sock self) ++ firstn k data /\
    wire (sock self') <> wire (sock self) ++ data.
Proof.
  intros Henc Hacc Hk; exists (after_send data self).
  split; [now apply send_encoded|].
  assert (Hw : wire (sock (after_send data self))
               = wire (sock self) ++ firstn k data).
  { unfold after_send, sock_send; cbn [snd log set_sock sock wire].
    rewrite Hacc, Nat.min_l by lia; reflexivity. }
  split; [exact Hw|].
  rewrite Hw; intros H; apply app_inv_head in H.
  apply (f_equal (@List.length byte)) in H.
  rewrite firstn_length_le in H by lia; lia.
Qed.

(** X18: whatever arrived without a line feed before the peer closed,
    the loop of [_read_buffer] does not end: each further read returns
    zero bytes, the buffer stays as it is, and no amount of fuel lets the
    call return. *)
Lemma read_buffer_closed_midline (c : bytes) (fuel : nat) (self : Bot) :
  inbound (sock self) = [c] ->
  one_read c = true ->
  ends_lf c = false ->
  _read_buffer fuel self = (OutOfFuel, delivered [] self).
Proof.
  intros Hin Hone Hlf; unfold _read_buffer, bind at 1.
  rewrite (recv_chunk _ Hin Hone).
  destruct (one_read_spec _ Hone) as [Hne _].
  destruct c as [|b c]; [contradiction|].
  change (List.length (b :: c) <? 1) with false; cbv iota.
  unfold bind at 1.
  rewrite read_loop_closed; [reflexivity|reflexivity|discriminate|exact Hlf].
Qed.

(** A command that [run] does not route is printed and dropped. *)
Lemma dispatch_unrouted (msg : IRC_Message.t) (cmd : str) (self : Bot) :
  IRC_Message.command msg = Some cmd ->
  cmd <> lit "PING" -> cmd <> lit "001" -> cmd <> lit "PRIVMSG" ->
  dispatch msg self = (Ok tt, log (Stdout (IRC_Message.__str__ msg)) self).
Proof.
  intros Hc H1 H2 H3; unfold dispatch, bind, modify, get; rewrite Hc.
  apply str_eqb_neq in H1, H2, H3; rewrite H1, H2, H3; reflexivity.
Qed.

(** Registrations that bear the word are all called as long as none
    before them differs: two handlers registered as [bar] both answer
    [!bar x]. *)
Lemma bang_dispatch_calls_leading_matches :
  let self := fresh (peer []) sample
                [(lit "bar", pong_back); (lit "bar", boom)] [] in
  invoked Bang
    (trace (snd (handle_line (lit ":nick!user@host PRIVMSG #chan :!bar x")
                   self))) = [0; 1].
Proof. vm_compute; reflexivity. Qed.

Lemma index_head (x : str) (w : list str) : index x (x :: w) = Ok 0.
Proof. cbn [index]; now rewrite str_eqb_refl. Qed.

Lemma index_second (x y : str) (w : list str) :
  y <> x -> index x (y :: x :: w) = Ok 1.
Proof.
  intros H; apply str_eqb_neq in H.
  cbn [index]; rewrite H, str_eqb_refl; reflexivity.
Qed.

Lemma index_third (x y z : str) (w : list str) :
  y <> x -> z <> x -> index x (y :: z :: x :: w) = Ok 2.
Proof.
  intros H1 H2; apply str_eqb_neq in H1, H2.
  cbn [index]; rewrite H1, H2, str_eqb_refl; reflexivity.
Qed.

(** Without a prefix, and when the token after the command differs from
    it, the fields are those of the grammar. *)
Lemma parse_without_prefix (line : str) (c0 : N) (cmd m : str)
    (rest : list str) :
  split (lit " ") line = (c0 :: cmd) :: m :: rest ->
  [c0] <> lit ":" ->
  m <> c0 :: cmd ->
  IRC_Message.__init__ line =
  Ok {| IRC_Message.prefix := None;
        IRC_Message.nickname := None;
        IRC_Message.command := Some (c0 :: cmd);
        IRC_Message.middle := Some m;
        IRC_Message.trailing := trailing_of rest;
        IRC_Message.message := option_map (skipn 1) (trailing_of rest) |}.
Proof.
  intros Hw Hc Hm; unfold IRC_Message.__init__; rewrite Hw.
  apply str_eqb_neq in Hc.
  cbn [List.length Nat.ltb Nat.leb getitem nth_error res_bind].
  rewrite Hc; cbn [fst snd res_bind].
  rewrite index_head.
  cbn [res_bind Nat.add Nat.ltb Nat.leb getitem nth_error].
  rewrite index_second by congruence.
  destruct rest as [|r rest]; reflexivity.
Qed.

(** With a prefix, and when neither the command nor the token after it
    repeats an earlier token, the fields are those of the grammar. *)
Lemma parse_with_prefix (line : str) (p cmd m : str) (rest : list str) :
  split (lit " ") line = (58%N :: p) :: cmd :: m :: rest ->
  cmd <> 58%N :: p ->
  m <> 58%N :: p ->
  m <> cmd ->
  IRC_Message.__init__ line =
  Ok {| IRC_Message.prefix := Some (58%N :: p);
        IRC_Message.nickname :=
          if str_in (lit "!") (58%N :: p)
          then Some (skipn 1 (hd [] (split (lit "!") (58%N :: p))))
          else None;
        IRC_Message.command := Some cmd;
        IRC_Message.middle := Some m;
        IRC_Message.trailing := trailing_of rest;
        IRC_Message.message := option_map (skipn 1) (trailing_of rest) |}.
Proof.
  intros Hw Hc Hm1 Hm2; unfold IRC_Message.__init__; rewrite Hw.
  cbn [List.length Nat.ltb Nat.leb getitem nth_error res_bind].
  change (str_eqb [58%N] (lit ":")) with true.
  cbn [firstn fst snd res_bind].
  assert (Hn : forall A (k : option str -> res A),
             res_bind
               (if str_in (lit "!") (58%N :: p)
                then res_bind
                       (match nth_error (split (lit "!") (58%N :: p)) 0 with
                        | Some x => Ok x
                        | None => Raise IndexError
                        end)
                       (fun n => Ok (Some (skipn 1 n)))
                else Ok None) k
             = k (if str_in (lit "!") (58%N :: p)
                  then Some (skipn 1 (hd [] (split (lit "!") (58%N :: p))))
                  else None)).
  { intros A k; destruct (str_in (lit "!") (58%N :: p)); [|reflexivity].
    pose proof (split_first (lit "!") (58%N :: p)) as Hs.
    unfold getitem in Hs.
    destruct (nth_error (split (lit "!") (58%N :: p)) 0) as [x|];
      [|discriminate].
    injection Hs as ->; reflexivity. }
  rewrite Hn.
  rewrite index_second by congruence.
  cbn [res_bind Nat.add Nat.ltb Nat.leb getitem nth_error List.length].
  rewrite index_third by congruence.
  destruct rest as [|r rest]; reflexivity.
Qed.
(** ** Tokens *)

Lemma startswith_char (c x : N) (s : str) :
  startswith [c] (x :: s) = N.eqb c x.
Proof. cbn [startswith]; apply andb_true_r. Qed.

(** Up to the first separator a split collects one piece. *)
Lemma split_go_until (c : N) (a : str) :
  forall (cur t : str),
    ~ In c a ->
    split_go [c] 0 cur (a ++ c :: t) = (cur ++ a) :: split_go [c] 0 [] t.
Proof.
  induction a as [|x a IH]; intros cur t Hin.
  - cbn [app split_go]; rewrite startswith_char, N.eqb_refl, app_nil_r.
    reflexivity.
  - cbn [app split_go]; rewrite startswith_char.
    destruct (N.eqb_spec c x) as [->|Hne]; [exfalso; apply Hin; now left|].
    rewrite IH by (intros H; apply Hin; now right).
    now rewrite <- app_assoc.
Qed.

Lemma split_go_none (c : N) (a : str) :
  forall cur : str, ~ In c a -> split_go [c] 0 cur a = [cur ++ a].
Proof.
  induction a as [|x a IH]; intros cur Hin.
  - now rewrite app_nil_r.
  - cbn [split_go]; rewrite startswith_char.
    destruct (N.eqb_spec c x) as [->|Hne]; [exfalso; apply Hin; now left|].
    rewrite IH by (intros H; apply Hin; now right).
    now rewrite <- app_assoc.
Qed.

(** [a + sep + t] splits into [a] and the pieces of [t] when [sep] does
    not occur in [a]. *)
Lemma split_until (c : N) (a t : str) :
  ~ In c a -> split [c] (a ++ c :: t) = a :: split [c] t.
Proof. intros H; unfold split; now rewrite split_go_until. Qed.

Lemma split_none (c : N) (a : str) : ~ In c a -> split [c] a = [a].
Proof. intros H; unfold split; now rewrite split_go_none. Qed.

Lemma startswith_app (p s : str) :
  startswith p s = true -> s = p ++ skipn (List.length p) s.
Proof.
  revert s; induction p as [|x p IH]; intros s H; [reflexivity|].
  destruct s as [|y s]; [discriminate|].
  cbn [startswith] in H; apply andb_true_iff in H as [Hx Hp].
  apply N.eqb_eq in Hx; subst y.
  cbn [List.length skipn app]; f_equal; now apply IH.
Qed.

Lemma join_cons (sep w : str) (ws : list str) :
  ws <> [] -> Py.join sep (w :: ws) = w ++ sep ++ Py.join sep ws.
Proof. destruct ws; [congruence|reflexivity]. Qed.

(** Joining the pieces of a split with the separator gives the text
    back. *)
Lemma join_split_go (sep : str) :
  sep <> [] ->
  forall (s : str) (skip : nat) (cur : str),
    skip <= List.length s ->
    Py.join sep (split_go sep skip cur s) = cur ++ skipn skip s.
Proof.
  intros Hsep; induction s as [|c s IH]; intros skip cur Hskip.
  - cbn in Hskip; assert (skip = 0) by lia; subst.
    cbn; now rewrite app_nil_r.
  - cbn [split_go]; destruct skip as [|k].
    + destruct (startswith sep (c :: s)) eqn:E.
      * rewrite join_cons by apply split_go_not_nil.
        pose proof (startswith_app _ _ E) as Hs.
        destruct sep as [|x sep]; [congruence|].
        cbn [List.length Nat.sub] in *.
        assert (Hlen : List.length sep <= List.length s).
        { apply (f_equal (@List.length N)) in Hs.
          rewrite length_app in Hs; cbn [List.length skipn] in Hs; lia. }
        rewrite IH by lia.
        cbn [skipn app] in Hs |- *.
        injection Hs as -> Hs.
        do 2 f_equal.
        etransitivity; [|symmetry; exact Hs].
        do 2 f_equal; lia.
      * rewrite IH by lia. cbn [skipn]; now rewrite <- app_assoc.
    + cbn [skipn]; apply IH; cbn in Hskip; lia.
Qed.

Lemma join_split (sep s : str) :
  sep <> [] -> Py.join sep (split sep s) = s.
Proof.
  intros H; unfold split; rewrite join_split_go by (assumption || lia).
  reflexivity.
Qed.

(** The first piece of a split starts with what was collected. *)
Lemma split_go_head (sep : str) (s : str) :
  forall cur, exists t l, split_go sep 0 cur s = (cur ++ t) :: l.
Proof.
  induction s as [|c s IH]; intros cur.
  - exists [], []; now rewrite app_nil_r.
  - cbn [split_go]; destruct (startswith sep (c :: s)).
    + exists [], (split_go sep (List.length sep - 1) [] s).
      now rewrite app_nil_r.
    + destruct (IH (cur ++ [c])) as (t & l & ->).
      exists (c :: t), l; now rewrite <- app_assoc.
Qed.

(** A line that does not begin with a space has a first token that is
    not empty. *)
Lemma first_token_not_empty (c : N) (s : str) :
  c <> 32%N ->
  exists t l, split (lit " ") (c :: s) = (c :: t) :: l.
Proof.
  intros Hc; unfold split; change (lit " ") with [32%N].
  cbn [split_go]; rewrite startswith_char.
  destruct (N.eqb_spec 32 c) as [E|_]; [congruence|].
  destruct (split_go_head [32%N] s ([] ++ [c])) as (t & l & ->).
  now exists t, l.
Qed.

(** A line that begins with a space has an empty first token and at
    least one more. *)
Lemma leading_space_tokens (s : str) :
  exists w1 l, split (lit " ") (32%N :: s) = [] :: w1 :: l.
Proof.
  unfold split; change (lit " ") with [32%N].
  cbn [split_go]; rewrite startswith_char, N.eqb_refl.
  cbn [List.length Nat.sub].
  destruct (split_go [32%N] 0 [] s) as [|w1 l] eqn:E;
    [now apply split_go_not_nil in E|].
  now exists w1, l.
Qed.

(** ** The parser, in closed form *)

Lemma index_pos (x : str) (w : list str) :
  In x w ->
  index x w = Ok (pos x w) /\
  pos x w < List.length w /\
  nth_error w (pos x w) = Some x.
Proof.
  induction w as [|y w IH]; intros Hin; [contradiction|].
  cbn [index pos]; destruct (str_eqb y x) eqn:E.
  - apply str_eqb_eq in E; subst y.
    repeat split; cbn; lia.
  - apply str_eqb_neq in E.
    destruct Hin as [Hy|Hin]; [congruence|].
    destruct (IH Hin) as (-> & Hlt & Hnth).
    repeat split; [cbn; lia|exact Hnth].
Qed.

Lemma middle_step (c : str) (w : list str) :
  In c w ->
  (i <~ index c w ;;
   if i + 1 <? List.length w then
     j <~ index c w ;;
     m <~ getitem w (j + 1) ;;
     Ok (Some m)
   else Ok None)
  = Ok (nth_error w (pos c w + 1)).
Proof.
  intros Hin; destruct (index_pos _ _ Hin) as (-> & _ & _).
  cbn [res_bind]; unfold getitem.
  destruct (Nat.ltb_spec (pos c w + 1) (List.length w)) as [Hlt|Hge].
  - cbn [res_bind].
    destruct (nth_error w (pos c w + 1)) eqn:E; [reflexivity|].
    apply nth_error_None in E; lia.
  - symmetry; f_equal; now apply nth_error_None.
Qed.

Lemma trailing_step (m : str) (w : list str) :
  In m w ->
  (i <~ index m w ;;
   if i + 1 <? List.length w then
     j <~ index m w ;;
     Ok (Some (Py.join (lit " ") (skipn (j + 1) w)))
   else Ok None)
  = Ok (if pos m w + 1 <? List.length w
        then Some (Py.join (lit " ") (skipn (pos m w + 1) w))
        else None).
Proof.
  intros Hin; destruct (index_pos _ _ Hin) as (-> & _ & _).
  cbn [res_bind]; destruct (pos m w + 1 <? List.length w); reflexivity.
Qed.

Lemma nickname_step (p : str) :
  (if str_in (lit "!") p then
     n <~ getitem (split (lit "!") p) 0 ;;
     Ok (Some (skipn 1 n))
   else Ok None)
  = Ok (nickname_of p).
Proof.
  unfold nickname_of; destruct (str_in (lit "!") p); [|reflexivity].
  now rewrite split_first.
Qed.

(** A line of two tokens or more whose first token is not empty is
    parsed, and the fields are those of [of_tokens]. *)
Lemma parse_tokens (line : str) (c0 : N) (t0 w1 : str) (rest : list str) :
  split (lit " ") line = (c0 :: t0) :: w1 :: rest ->
  IRC_Message.__init__ line = Ok (of_tokens (c0 :: t0) w1 rest).
Proof.
  intros Hw.
  assert (Hof : forall colon w,
             colon = str_eqb [c0] (lit ":") ->
             w = (c0 :: t0) :: w1 :: rest ->
             of_tokens (c0 :: t0) w1 rest =
             let prefix := if colon then Some (c0 :: t0) else None in
             let command := if colon then w1 else c0 :: t0 in
             let middle := nth_error w (pos command w + 1) in
             let trailing :=
               match middle with
               | Some m =>
                   if pos m w + 1 <? List.length w
                   then Some (Py.join (lit " ") (skipn (pos m w + 1) w))
                   else None
               | None => None
               end in
             IRC_Message.Build prefix
               match prefix with Some p => nickname_of p | None => None end
               (Some command) middle trailing
               (option_map (skipn 1) trailing))
    by (intros colon w -> ->; reflexivity).
  unfold IRC_Message.__init__; rewrite Hw.
  cbn [List.length Nat.ltb Nat.leb getitem nth_error res_bind firstn].
  set (w := (c0 :: t0) :: w1 :: rest).
  rewrite (Hof _ w eq_refl eq_refl); clear Hof.
  destruct (str_eqb [c0] (lit ":")) eqn:Ec; cbv zeta.
  - cbn [res_bind fst snd].
    rewrite nickname_step; cbn [res_bind].
    rewrite middle_step by (right; left; reflexivity).
    cbn [res_bind]; unfold str in *.
    destruct (nth_error w (pos w1 w + 1)) as [m|] eqn:Em; [|reflexivity].
    rewrite trailing_step by (eapply nth_error_In; exact Em).
    reflexivity.
  - cbn [res_bind fst snd].
    rewrite middle_step by (left; reflexivity).
    cbn [res_bind]; unfold str in *.
    destruct (nth_error w (pos (c0 :: t0) w + 1)) as [m|] eqn:Em;
      [|reflexivity].
    rewrite trailing_step by (eapply nth_error_In; exact Em).
    reflexivity.
Qed.

Lemma parse_leading_space (s : str) :
  IRC_Message.__init__ (32%N :: s) = Raise IndexError.
Proof.
  destruct (leading_space_tokens s) as (w1 & l & Hw).
  unfold IRC_Message.__init__; rewrite Hw; reflexivity.
Qed.

Lemma parse_no_leading_space (line : str) :
  startswith (lit " ") line = false ->
  exists msg, IRC_Message.__init__ line = Ok msg.
Proof.
  destruct line as [|c s]; [exists IRC_Message.absent; reflexivity|].
  change (lit " ") with [32%N]; rewrite startswith_char; intros Hc.
  apply N.eqb_neq in Hc.
  destruct (@first_token_not_empty c s) as (t & l & Hw); [congruence|].
  destruct l as [|w1 rest].
  - exists IRC_Message.absent; apply parse_short_line.
    rewrite Hw; cbn; lia.
  - eexists; apply (parse_tokens _ Hw).
Qed.

(** X1: the parser raises on the lines that begin with a space, and on
    those only.  Such a line has an empty first token and a second one,
    and subscripting the empty token raises [IndexError]; every other
    line is parsed. *)
Theorem parse_raises_on_leading_space :
  forall line : str,
    if startswith (lit " ") line
    then IRC_Message.__init__ line = Raise IndexError
    else exists msg, IRC_Message.__init__ line = Ok msg.
Proof.
  intros line; destruct (startswith (lit " ") line) eqn:E.
  - destruct line as [|c s]; [discriminate|].
    change (lit " ") with [32%N] in E; rewrite startswith_char in E.
    apply N.eqb_eq in E; subst c; apply parse_leading_space.
  - now apply parse_no_leading_space.
Qed.

(** X2: whatever the tokens that follow, a line of two tokens or more
    gets its prefix and its command from the first two tokens: when the
    first token begins with a colon it is the prefix and the second is
    the command; otherwise there is no prefix, the first token is the
    command and the second is the middle parameter. *)
Theorem parse_prefix_and_command :
  forall (line : str) (c0 : N) (t0 w1 : str) (rest : list str),
    split (lit " ") line = (c0 :: t0) :: w1 :: rest ->
    exists msg,
      IRC_Message.__init__ line = Ok msg /\
      if N.eqb c0 58 then
        IRC_Message.prefix msg = Some (c0 :: t0) /\
        IRC_Message.command msg = Some w1
      else
        IRC_Message.prefix msg = None /\
        IRC_Message.nickname msg = None /\
        IRC_Message.command msg = Some (c0 :: t0) /\
        IRC_Message.middle msg = Some w1.
Proof.
  intros line c0 t0 w1 rest Hw.
  exists (of_tokens (c0 :: t0) w1 rest); split; [apply (parse_tokens _ Hw)|].
  unfold of_tokens; cbn [firstn].
  change (str_eqb [c0] (lit ":")) with (N.eqb c0 58 && true).
  rewrite andb_true_r; destruct (N.eqb c0 58); cbn.
  - split; reflexivity.
  - rewrite str_eqb_refl, N.eqb_refl; cbn. repeat split.
Qed.

Lemma parse_prefix_and_command_witness :
  split (lit " ") (lit "PING PING :x")
    = (80%N :: lit "ING") :: lit "PING" :: [lit ":x"] /\
  exists msg,
    IRC_Message.__init__ (lit "PING PING :x") = Ok msg /\
    if N.eqb 80 58 then
      IRC_Message.prefix msg = Some (lit "PING") /\
      IRC_Message.command msg = Some (lit "PING")
    else
      IRC_Message.prefix msg = None /\
      IRC_Message.nickname msg = None /\
      IRC_Message.command msg = Some (lit "PING") /\
      IRC_Message.middle msg = Some (lit "PING").
Proof.
  assert (H : split (lit " ") (lit "PING PING :x")
              = (80%N :: lit "ING") :: lit "PING" :: [lit ":x"])
    by reflexivity.
  split; [exact H|].
  exact (@parse_prefix_and_command (lit "PING PING :x") 80%N (lit "ING")
           (lit "PING") [lit ":x"] H).
Defined.

Lemma str_in_char (c : N) (s : str) : In c s -> str_in [c] s = true.
Proof.
  induction s as [|x s IH]; intros Hin; [contradiction|].
  cbn [str_in]; rewrite startswith_char.
  destruct (N.eqb_spec c x) as [_|Hne]; [reflexivity|].
  destruct Hin as [E|Hin]; [congruence|].
  now rewrite IH.
Qed.

Lemma str_in_char_not (c : N) (s : str) : ~ In c s -> str_in [c] s = false.
Proof.
  induction s as [|x s IH]; intros Hin; [reflexivity|].
  cbn [str_in]; rewrite startswith_char.
  destruct (N.eqb_spec c x) as [E|Hne]; [exfalso; apply Hin; now left|].
  apply IH; intros H; apply Hin; now right.
Qed.

(** X3: the nickname is what stands between the colon of the prefix and
    its first exclamation mark; a prefix without an exclamation mark
    gives no nickname. *)
Theorem parse_nickname :
  forall (line : str) (p w1 : str) (rest : list str),
    split (lit " ") line = (58%N :: p) :: w1 :: rest ->
    exists msg,
      IRC_Message.__init__ line = Ok msg /\
      (forall nick host,
         p = nick ++ 33%N :: host -> ~ In 33%N nick ->
         IRC_Message.nickname msg = Some nick) /\
      (~ In 33%N p -> IRC_Message.nickname msg = None).
Proof.
  intros line p w1 rest Hw.
  exists (of_tokens (58%N :: p) w1 rest); split; [apply (parse_tokens _ Hw)|].
  unfold of_tokens; cbn [firstn].
  change (str_eqb [58%N] (lit ":")) with true; cbv iota.
  cbn [IRC_Message.nickname]; unfold nickname_of.
  change (lit "!") with [33%N]; split.
  - intros nick host -> Hnick.
    rewrite str_in_char by (right; apply in_or_app; right; now left).
    change (58%N :: nick ++ 33%N :: host)
      with ((58%N :: nick) ++ 33%N :: host).
    rewrite split_until; [reflexivity|].
    intros [E|H]; [discriminate|contradiction].
  - intros Hp; rewrite str_in_char_not; [reflexivity|].
    intros [E|H]; [discriminate|contradiction].
Qed.

Lemma parse_nickname_witness :
  split (lit " ") (lit ":nick!user@host PRIVMSG bot :hi")
    = (58%N :: lit "nick!user@host") :: lit "PRIVMSG" :: [lit "bot"; lit ":hi"] /\
  lit "nick!user@host" = lit "nick" ++ 33%N :: lit "user@host" /\
  ~ In 33%N (lit "nick") /\
  exists msg,
    IRC_Message.__init__ (lit ":nick!user@host PRIVMSG bot :hi") = Ok msg /\
    IRC_Message.nickname msg = Some (lit "nick").
Proof.
  assert (H : split (lit " ") (lit ":nick!user@host PRIVMSG bot :hi")
              = (58%N :: lit "nick!user@host")
                :: lit "PRIVMSG" :: [lit "bot"; lit ":hi"]) by reflexivity.
  assert (H1 : lit "nick!user@host" = lit "nick" ++ 33%N :: lit "user@host")
    by reflexivity.
  assert (H2 : ~ In 33%N (lit "nick"))
    by (cbn; intros [E|[E|[E|[E|[]]]]]; discriminate).
  split; [exact H|split; [exact H1|split; [exact H2|]]].
  destruct (parse_nickname _ H) as (msg & Hp & Hn & _).
  exists msg; split; [exact Hp|].
  exact (Hn (lit "nick") (lit "user@host") H1 H2).
Defined.

(** ** Printing a message *)

Lemma str_fold (ws : list (option str)) :
  forall acc : str,
    fold_left
      (fun s w => match w with Some w => s ++ w ++ lit " " | None => s end)
      ws acc
    = acc ++ List.concat (List.map (fun w => w ++ lit " ") (present ws)).
Proof.
  induction ws as [|[w|] ws IH]; intros acc; cbn [fold_left present flat_map].
  - now rewrite app_nil_r.
  - rewrite IH; cbn [app List.map List.concat].
    now rewrite <- !app_assoc.
  - rewrite IH; reflexivity.
Qed.

Lemma removelast_spaced (ws : list str) :
  removelast (List.concat (List.map (fun w => w ++ lit " ") ws))
  = Py.join (lit " ") ws.
Proof.
  induction ws as [|w ws IH]; [reflexivity|].
  destruct ws as [|w' ws].
  - cbn [List.map List.concat Py.join]; rewrite app_nil_r.
    apply removelast_last.
  - rewrite join_cons by discriminate.
    rewrite <- IH; remember (w' :: ws) as l eqn:El.
    cbn [List.map List.concat].
    rewrite removelast_app, <- app_assoc; [reflexivity|].
    subst l; cbn [List.map List.concat].
    intros H; apply app_eq_nil in H as [H _].
    apply app_eq_nil in H as [_ H]; discriminate.
Qed.

(** X4: [str(msg)] is the fields that are present, among the prefix, the
    command, the middle and the trailing parameter in this order, joined
    by single spaces, with no space at the end; the nickname and the body
    are not printed. *)
Theorem str_joins_present_fields :
  forall msg : IRC_Message.t,
    IRC_Message.__str__ msg =
    Py.join (lit " ")
      (present [IRC_Message.prefix msg; IRC_Message.command msg;
                IRC_Message.middle msg; IRC_Message.trailing msg]).
Proof.
  intros msg; unfold IRC_Message.__str__.
  rewrite str_fold; cbn [app]; apply removelast_spaced.
Qed.

Lemma first_is_colon (w0 : str) :
  str_eqb (firstn 1 w0) (lit ":") = true -> exists p, w0 = 58%N :: p.
Proof.
  destruct w0 as [|c p]; [discriminate|].
  cbn [firstn]; intros H; apply str_eqb_eq in H.
  injection H as ->; now exists p.
Qed.

(** X5: when the tokens of a line are unambiguous, printing the parsed
    message gives the line back. *)
Theorem print_parse_round_trip :
  forall line : str,
    unambiguous (split (lit " ") line) = true ->
    exists msg,
      IRC_Message.__init__ line = Ok msg /\
      IRC_Message.__str__ msg = line.
Proof.
  intros line Hu.
  pose proof (@join_split (lit " ") line ltac:(discriminate)) as Hj.
  destruct (split (lit " ") line) as [|w0 [|w1 rest]] eqn:Hw;
    try discriminate.
  cbn [unambiguous] in Hu.
  destruct (str_eqb (firstn 1 w0) (lit ":")) eqn:Ec.
  - destruct (first_is_colon _ Ec) as [p ->].
    exists (of_tokens (58%N :: p) w1 rest).
    split; [apply (parse_tokens _ Hw)|].
    unfold IRC_Message.__str__; rewrite str_fold; cbn [app].
    rewrite removelast_spaced, <- Hj; unfold of_tokens.
    rewrite Ec; cbv zeta.
    apply andb_true_iff in Hu as [H01 Hu]; apply negb_true_iff in H01.
    cbn [IRC_Message.prefix IRC_Message.command IRC_Message.middle
         IRC_Message.trailing pos].
    rewrite H01, str_eqb_refl.
    destruct rest as [|m r]; [reflexivity|].
    apply andb_true_iff in Hu as [H0m H1m].
    apply negb_true_iff in H0m, H1m.
    cbn [nth_error Nat.add pos]; rewrite H0m, H1m, str_eqb_refl.
    destruct r as [|r0 r]; reflexivity.
  - apply andb_true_iff in Hu as [Hne H01].
    apply negb_true_iff in Hne, H01.
    destruct w0 as [|c0 t0]; [discriminate|].
    exists (of_tokens (c0 :: t0) w1 rest).
    split; [apply (parse_tokens _ Hw)|].
    unfold IRC_Message.__str__; rewrite str_fold; cbn [app].
    rewrite removelast_spaced, <- Hj; unfold of_tokens.
    rewrite Ec; cbv zeta.
    cbn [IRC_Message.prefix IRC_Message.command IRC_Message.middle
         IRC_Message.trailing pos].
    rewrite str_eqb_refl; cbn [nth_error Nat.add pos].
    rewrite H01, str_eqb_refl.
    destruct rest as [|r0 r]; reflexivity.
Qed.

Lemma print_parse_round_trip_witness :
  unambiguous
    (split (lit " ") (lit ":nick!user@host PRIVMSG #chan :hello  world"))
  = true /\
  exists msg,
    IRC_Message.__init__ (lit ":nick!user@host PRIVMSG #chan :hello  world")
      = Ok msg /\
    IRC_Message.__str__ msg = lit ":nick!user@host PRIVMSG #chan :hello  world".
Proof.
  split; [reflexivity|].
  apply print_parse_round_trip; reflexivity.
Defined.

(** ** What reading and dispatching leave alone *)

Lemma input_only_refl (self : Bot) : input_only self self.
Proof. repeat split. Qed.

Lemma input_only_trans (a b c : Bot) :
  input_only a b -> input_only b c -> input_only a c.
Proof.
  intros (H1 & H2 & H3 & H4 & H5 & H6) (K1 & K2 & K3 & K4 & K5 & K6).
  repeat split; congruence.
Qed.

Lemma recv_input_only (n : nat) (self : Bot) :
  input_only self (snd (recv n self)).
Proof.
  unfold recv; destruct (inbound (sock self)); repeat split.
Qed.

Lemma recv_ok (n : nat) (self : Bot) : exists b, fst (recv n self) = Ok b.
Proof.
  unfold recv; destruct (inbound (sock self)); eexists; reflexivity.
Qed.

Lemma read_loop_input_only (fuel : nat) :
  forall (buf : bytes) (self : Bot),
    input_only self (snd (read_loop fuel buf self)).
Proof.
  induction fuel as [|fuel IH]; intros buf self; cbn [read_loop];
    unfold bind at 1, lift at 1.
  - destruct (getlast buf) as [b|e|]; try apply input_only_refl.
    destruct (negb _); apply input_only_refl.
  - destruct (getlast buf) as [b|e|]; try apply input_only_refl.
    destruct (negb _); [|apply input_only_refl].
    unfold bind.
    pose proof (recv_input_only 1024 self) as Hr.
    destruct (recv_ok 1024 self) as [chunk Hc].
    destruct (recv 1024 self) as [r self1]; cbn [fst snd] in *; subst r.
    apply (input_only_trans Hr), IH.
Qed.

Lemma read_buffer_input_only (fuel : nat) (self : Bot) :
  input_only self (snd (_read_buffer fuel self)).
Proof.
  unfold _read_buffer, bind at 1.
  pose proof (recv_input_only 1024 self) as Hr.
  destruct (recv_ok 1024 self) as [chunk Hc].
  destruct (recv 1024 self) as [r self1]; cbn [fst snd] in *; subst r.
  destruct (List.length chunk <? 1); [exact Hr|].
  unfold bind at 1.
  pose proof (read_loop_input_only fuel chunk self1) as Hl.
  destruct (read_loop fuel chunk self1) as [[buf|e|] self2]; cbn [snd] in *;
    try exact (input_only_trans Hr Hl).
  unfold bind, lift.
  destruct (utf8_decode buf); exact (input_only_trans Hr Hl).
Qed.

(** X6: reading never writes.  However [read] ends, it has sent nothing,
    printed nothing and called no handler, and the configuration and the
    handlers of the bot are what they were. *)
Theorem read_is_input_only :
  forall (fuel : nat) (self : Bot),
    input_only self (snd (_read_buffer fuel self)) /\
    input_only self (snd (read fuel self)).
Proof.
  intros fuel self; split; [apply read_buffer_input_only|].
  unfold read, bind at 1.
  pose proof (read_buffer_input_only fuel self) as Hb.
  destruct (_read_buffer fuel self) as [[[text|]|e|] self1]; cbn [snd] in *;
    try exact Hb.
  unfold bind, lift.
  destruct (_parse_irc_messages _) as [ms|e|]; exact Hb.
Qed.

Lemma output_only_refl (self : Bot) : output_only self self.
Proof.
  repeat split; [exists []|exists []]; now rewrite app_nil_r.
Qed.

Lemma output_only_trans (a b c : Bot) :
  output_only a b -> output_only b c -> output_only a c.
Proof.
  intros (H1 & H2 & H3 & H4 & H5 & [t Ht] & [bs Hbs])
         (K1 & K2 & K3 & K4 & K5 & [u Hu] & [cs Hcs]).
  repeat split; try congruence.
  - exists (t ++ u); now rewrite Hu, Ht, app_assoc.
  - exists (bs ++ cs); now rewrite Hcs, Hbs, app_assoc.
Qed.

Lemma sends_only_ret {A} (a : A) : sends_only (ret a).
Proof. intros self; apply output_only_refl. Qed.

Lemma sends_only_lift {A} (r : res A) : sends_only (lift r).
Proof. intros self; apply output_only_refl. Qed.

Lemma sends_only_bind {A B} (m : M A) (k : A -> M B) :
  sends_only m -> (forall a, sends_only (k a)) ->
  sends_only (bind m k).
Proof.
  intros Hm Hk self; unfold bind.
  pose proof (Hm self) as H1.
  destruct (m self) as [[a|e|] self1]; cbn [snd] in *; try exact H1.
  exact (output_only_trans H1 (Hk a self1)).
Qed.

Lemma sends_only_get : sends_only get.
Proof. intros self; apply output_only_refl. Qed.

Lemma sends_only_log (e : event) : sends_only (modify (log e)).
Proof.
  intros self; repeat split; [now exists [e]|exists []; cbn].
  now rewrite app_nil_r.
Qed.

Lemma sends_only_sock_send (data : bytes) : sends_only (sock_send data).
Proof.
  intros self; repeat split; [now exists [Send data]|].
  cbn; eexists; reflexivity.
Qed.

Lemma sends_only_send (s : str) : sends_only (send s).
Proof.
  unfold send; apply sends_only_bind; [apply sends_only_lift|intros data].
  apply sends_only_bind; [apply sends_only_sock_send|intros _].
  apply sends_only_ret.
Qed.

Lemma sends_only_reply (target r : option str) : sends_only (reply target r).
Proof.
  destruct r as [r|]; [apply sends_only_send|apply sends_only_ret].
Qed.

Lemma sends_only_call k i f msg : sends_only (call k i f msg).
Proof.
  unfold call; apply sends_only_bind; [apply sends_only_get|intros self].
  apply sends_only_bind; [apply sends_only_log|intros _].
  destruct (f (ident self) msg); apply sends_only_ret.
Qed.

Lemma sends_only_call_function_loop msg target fs :
  forall i, sends_only (call_function_loop msg target i fs).
Proof.
  induction fs as [|[b f] fs IH]; intros i; cbn [call_function_loop];
    [apply sends_only_ret|].
  apply sends_only_bind; [apply sends_only_lift|intros body].
  apply sends_only_bind; [apply sends_only_lift|intros w0].
  destruct (negb _); [apply sends_only_ret|].
  apply sends_only_bind; [apply sends_only_call|intros r].
  apply sends_only_bind; [apply sends_only_reply|intros _].
  apply IH.
Qed.

Lemma sends_only_call_on_privmsg_loop msg target fs :
  forall i, sends_only (call_on_privmsg_loop msg target i fs).
Proof.
  induction fs as [|f fs IH]; intros i; cbn [call_on_privmsg_loop];
    [apply sends_only_ret|].
  apply sends_only_bind; [apply sends_only_call|intros r].
  apply sends_only_bind; [apply sends_only_reply|intros _].
  apply IH.
Qed.

Lemma sends_only_dispatch (msg : IRC_Message.t) : sends_only (dispatch msg).
Proof.
  unfold dispatch.
  apply sends_only_bind; [apply sends_only_log|intros _].
  apply sends_only_bind; [apply sends_only_get|intros self].
  destruct (IRC_Message.command msg) as [cmd|]; [|apply sends_only_ret].
  destruct (str_eqb cmd (lit "PING")); [apply sends_only_send|].
  destruct (str_eqb cmd (lit "001")); [apply sends_only_send|].
  destruct (str_eqb cmd (lit "PRIVMSG")); [|apply sends_only_ret].
  apply sends_only_bind; [apply sends_only_lift|intros mid].
  apply sends_only_bind; [apply sends_only_lift|intros c].
  apply sends_only_bind.
  - unfold __call_function.
    apply sends_only_bind; [apply sends_only_get|intros self'].
    apply sends_only_bind; [apply sends_only_lift|intros body].
    apply sends_only_bind; [apply sends_only_lift|intros c'].
    destruct (negb _); [apply sends_only_ret|].
    apply sends_only_call_function_loop.
  - intros _; unfold __call_on_privmsg.
    apply sends_only_bind; [apply sends_only_get|intros self'].
    apply sends_only_call_on_privmsg_loop.
Qed.

(** X7: dispatching never touches the configuration.  However the loop
    of [run] ends on the messages of a read, after any number of handler
    calls, replies and exceptions, the identity of the bot, its two
    handler collections, the messages it keeps and the input not yet
    read are what they were; the trace and the bytes on the wire have
    only grown.  This is about the engine: a handler is described by its
    outcome, not by what it may do to the bot on its own. *)
Theorem dispatch_is_output_only :
  forall (msgs : list IRC_Message.t) (self : Bot),
    output_only self (snd (dispatch_all msgs self)).
Proof.
  induction msgs as [|msg msgs IH]; intros self; cbn [dispatch_all].
  - apply output_only_refl.
  - apply (@sends_only_bind _ _ (dispatch msg) (fun _ => dispatch_all msgs));
      [apply sends_only_dispatch|intros _ self'; apply IH].
Qed.

(** ** Lines that the bot answers itself *)

Lemma of_tokens_command (w0 w1 : str) (rest : list str) :
  IRC_Message.command (of_tokens w0 w1 rest)
  = Some (if str_eqb (firstn 1 w0) (lit ":") then w1 else w0).
Proof. reflexivity. Qed.

Lemma handle_line_parsed (line : str) (msg : IRC_Message.t) (self : Bot) :
  IRC_Message.__init__ line = Ok msg ->
  handle_line line self = dispatch msg self.
Proof. intros H; unfold handle_line, bind, lift; now rewrite H. Qed.

Lemma dispatch_ping (msg : IRC_Message.t) (data : bytes) (self : Bot) :
  IRC_Message.command msg = Some (lit "PING") ->
  utf8_encode (lit "PONG " ++ fmt (IRC_Message.middle msg) ++ CRLF)
    = Some data ->
  dispatch msg self =
  (Ok tt, after_send data (log (Stdout (IRC_Message.__str__ msg)) self)).
Proof.
  intros Hc Hd; unfold dispatch, bind at 1, modify.
  unfold bind at 1, get; rewrite Hc.
  change (str_eqb (lit "PING") (lit "PING")) with true; cbv iota.
  now apply pong_sends.
Qed.

Lemma dispatch_welcome (msg : IRC_Message.t) (data : bytes) (self : Bot) :
  IRC_Message.command msg = Some (lit "001") ->
  utf8_encode (lit "JOIN " ++ channel (ident self) ++ CRLF) = Some data ->
  dispatch msg self =
  (Ok tt, after_send data (log (Stdout (IRC_Message.__str__ msg)) self)).
Proof.
  intros Hc Hd; unfold dispatch, bind at 1, modify.
  unfold bind at 1, get; rewrite Hc.
  change (str_eqb (lit "001") (lit "PING")) with false.
  change (str_eqb (lit "001") (lit "001")) with true; cbv iota.
  now apply join_sends.
Qed.

(** X8: a line [PING <text>] is answered by [PONG <token>] CR LF, where
    the token is what stands in the text before its first space, and by
    nothing else. *)
Theorem ping_is_answered :
  forall (t : str) (data : bytes) (self : Bot),
    utf8_encode (lit "PONG " ++ hd [] (split (lit " ") t) ++ CRLF)
      = Some data ->
    exists s,
      handle_line (lit "PING " ++ t) self =
      (Ok tt, after_send data (log (Stdout s) self)).
Proof.
  intros t data self Hd.
  assert (Hw : split (lit " ") (lit "PING " ++ t)
               = lit "PING" :: split (lit " ") t).
  { change (lit "PING " ++ t) with (lit "PING" ++ 32%N :: t).
    apply (@split_until 32%N).
    cbn; intros [E|[E|[E|[E|[]]]]]; discriminate. }
  destruct (split (lit " ") t) as [|w1 rest] eqn:Et;
    [now apply split_go_not_nil in Et|].
  cbn [hd] in Hd.
  pose proof (@parse_tokens _ 80%N (lit "ING") w1 rest Hw) as Hp.
  rewrite (@handle_line_parsed _ _ self Hp).
  eexists; apply dispatch_ping; [reflexivity|].
  unfold of_tokens; cbn [firstn].
  change (str_eqb [80%N] (lit ":")) with false; cbv iota zeta.
  cbn [IRC_Message.middle pos]; rewrite str_eqb_refl.
  exact Hd.
Qed.

Lemma ping_is_answered_witness :
  utf8_encode (lit "PONG " ++ hd [] (split (lit " ") (lit ":abc")) ++ CRLF)
    = Some (blit "PONG :abc" ++ [x0d; x0a]) /\
  exists s,
    handle_line (lit "PING " ++ lit ":abc") (fresh (peer []) sample [] []) =
    (Ok tt,
     after_send (blit "PONG :abc" ++ [x0d; x0a])
       (log (Stdout s) (fresh (peer []) sample [] []))).
Proof.
  split; [reflexivity|].
  apply ping_is_answered; reflexivity.
Defined.

(** X9: the numeric 001 of a server, [:<server> 001 <text>], makes the bot
    join its channel: [JOIN <channel>] CR LF is sent, and nothing else. *)
Theorem welcome_is_followed_by_join :
  forall (srv tail : str) (data : bytes) (self : Bot),
    ~ In 32%N srv ->
    utf8_encode (lit "JOIN " ++ channel (ident self) ++ CRLF) = Some data ->
    exists s,
      handle_line (lit ":" ++ srv ++ lit " 001 " ++ tail) self =
      (Ok tt, after_send data (log (Stdout s) self)).
Proof.
  intros srv tail data self Hsrv Hd.
  assert (Hw : split (lit " ") (lit ":" ++ srv ++ lit " 001 " ++ tail)
               = (58%N :: srv) :: lit "001" :: split (lit " ") tail).
  { change (lit ":" ++ srv ++ lit " 001 " ++ tail)
      with ((58%N :: srv) ++ 32%N :: (lit "001" ++ 32%N :: tail)).
    change (lit " ") with [32%N].
    rewrite split_until by (intros [E|H]; [discriminate|contradiction]).
    rewrite split_until; [reflexivity|].
    cbn; intros [E|[E|[E|[]]]]; discriminate. }
  pose proof (@parse_tokens _ 58%N srv (lit "001") _ Hw) as Hp.
  rewrite (@handle_line_parsed _ _ self Hp).
  eexists; apply dispatch_welcome; [reflexivity|exact Hd].
Qed.

Lemma welcome_is_followed_by_join_witness :
  ~ In 32%N (lit "irc.example.org") /\
  utf8_encode (lit "JOIN " ++ channel (ident (fresh (peer []) sample [] []))
               ++ CRLF)
    = Some (blit "JOIN #chan" ++ [x0d; x0a]) /\
  exists s,
    handle_line (lit ":" ++ lit "irc.example.org" ++ lit " 001 "
                 ++ lit "bot :Welcome") (fresh (peer []) sample [] []) =
    (Ok tt,
     after_send (blit "JOIN #chan" ++ [x0d; x0a])
       (log (Stdout s) (fresh (peer []) sample [] []))).
Proof.
  assert (H : ~ In 32%N (lit "irc.example.org"))
    by (cbn; intuition discriminate).
  split; [exact H|split; [reflexivity|]].
  apply welcome_is_followed_by_join; [exact H|reflexivity].
Defined.

(** X10: a line that is parsed and whose command is none of [PING], [001]
    and [PRIVMSG] is printed and dropped: nothing is sent, no handler is
    called and no exception is raised. *)
Theorem unrouted_line_is_dropped :
  forall (line : str) (c0 : N) (t0 w1 : str) (rest : list str) (self : Bot),
    split (lit " ") line = (c0 :: t0) :: w1 :: rest ->
    let cmd := if N.eqb c0 58 then w1 else c0 :: t0 in
    cmd <> lit "PING" -> cmd <> lit "001" -> cmd <> lit "PRIVMSG" ->
    exists s, handle_line line self = (Ok tt, log (Stdout s) self).
Proof.
  intros line c0 t0 w1 rest self Hw cmd H1 H2 H3.
  pose proof (parse_tokens _ Hw) as Hp.
  rewrite (@handle_line_parsed _ _ self Hp).
  eexists; apply (@dispatch_unrouted _ cmd); try assumption.
  rewrite of_tokens_command; cbn [firstn].
  change (str_eqb [c0] (lit ":")) with (N.eqb c0 58 && true).
  now rewrite andb_true_r.
Qed.

Lemma unrouted_line_is_dropped_witness :
  split (lit " ") (lit ":srv NOTICE bot :hello")
    = (58%N :: lit "srv") :: lit "NOTICE" :: [lit "bot"; lit ":hello"] /\
  lit "NOTICE" <> lit "PING" /\
  lit "NOTICE" <> lit "001" /\
  lit "NOTICE" <> lit "PRIVMSG" /\
  exists s,
    handle_line (lit ":srv NOTICE bot :hello") (fresh (peer []) sample [] [])
    = (Ok tt, log (Stdout s) (fresh (peer []) sample [] [])).
Proof.
  assert (H : split (lit " ") (lit ":srv NOTICE bot :hello")
              = (58%N :: lit "srv") :: lit "NOTICE"
                :: [lit "bot"; lit ":hello"]) by reflexivity.
  assert (H1 : lit "NOTICE" <> lit "PING") by discriminate.
  assert (H2 : lit "NOTICE" <> lit "001") by discriminate.
  assert (H3 : lit "NOTICE" <> lit "PRIVMSG") by discriminate.
  repeat (split; [assumption|]).
  exact (@unrouted_line_is_dropped _ 58%N (lit "srv") (lit "NOTICE")
           [lit "bot"; lit ":hello"] (fresh (peer []) sample [] [])
           H H1 H2 H3).
Defined.

(** ** Which handlers are called *)

Lemma invoked_bang_events_seq id msg target word fs :
  forall i,
    invoked Bang (bang_events id msg target word i fs)
    = seq i (leading word fs).
Proof.
  induction fs as [|[b f] fs IH]; intros i; [reflexivity|].
  cbn [bang_events leading]; destruct (str_eqb word b); [|reflexivity].
  rewrite invoked_app, invoked_call_events, IH; reflexivity.
Qed.

Lemma invoked_bang_part_generic self msg target c body :
  invoked Generic (bang_part self msg target c body) = [].
Proof.
  unfold bang_part; destruct (str_eqb [c] (bang (ident self)));
    [apply invoked_bang_events|reflexivity].
Qed.

(** X11: which handlers a PRIVMSG calls.  When the replies can be sent,
    the bang-commands called are the registrations at the head of
    [functions] that bear the word after the trigger, in order, and none
    if the body does not begin with the trigger; the generic handlers are
    all called, once each and in order, whatever the body. *)
Theorem handlers_called_by_privmsg :
  forall (self : Bot) (msg : IRC_Message.t) (c : N) (mid : str)
         (c' : N) (body : str),
    IRC_Message.command msg = Some (lit "PRIVMSG") ->
    IRC_Message.middle msg = Some (c :: mid) ->
    IRC_Message.message msg = Some (c' :: body) ->
    forallb (can_reply (ident self) msg (respond_to msg c))
      (map snd (functions self) ++ on_privmsg self) = true ->
    exists self' t,
      dispatch msg self = (Ok tt, self') /\
      trace self' = trace self ++ t /\
      invoked Bang t =
        (if str_eqb [c'] (bang (ident self))
         then seq 0 (leading (bang_word (c' :: body)) (functions self))
         else []) /\
      invoked Generic t = seq 0 (List.length (on_privmsg self)).
Proof.
  intros self msg c mid c' body Hc Hm Hb Henc.
  destruct (dispatch_privmsg_events msg self Hc Hm Hb Henc)
    as (self' & Hd & Ht & _).
  eexists self', _; split; [exact Hd|split; [exact Ht|]].
  rewrite !invoked_app, invoked_bang_part_generic.
  destruct (invoked_generic_events (ident self) msg (respond_to msg c)
              (on_privmsg self) 0) as [Hg Hgb].
  rewrite Hg, Hgb; split; [|reflexivity].
  unfold bang_part; destruct (str_eqb [c'] (bang (ident self)));
    [|reflexivity].
  rewrite invoked_bang_events_seq; cbn [invoked flat_map app].
  apply app_nil_r.
Qed.

Lemma handlers_called_by_privmsg_witness :
  let self := fresh (peer []) sample
                [(lit "bar", pong_back); (lit "bar", boom);
                 (lit "foo", pong_back); (lit "bar", pong_back)]
                [boom; pong_back] in
  let msg := {| IRC_Message.prefix := Some (lit ":nick!user@host");
                IRC_Message.nickname := Some (lit "nick");
                IRC_Message.command := Some (lit "PRIVMSG");
                IRC_Message.middle := Some (lit "#chan");
                IRC_Message.trailing := Some (lit ":!bar x");
                IRC_Message.message := Some (lit "!bar x") |} in
  IRC_Message.command msg = Some (lit "PRIVMSG") /\
  IRC_Message.middle msg = Some (35%N :: lit "chan") /\
  IRC_Message.message msg = Some (33%N :: lit "bar x") /\
  forallb (can_reply (ident self) msg (respond_to msg 35%N))
    (map snd (functions self) ++ on_privmsg self) = true /\
  exists self' t,
    dispatch msg self = (Ok tt, self') /\
    trace self' = trace self ++ t /\
    invoked Bang t = [0; 1] /\
    invoked Generic t = [0; 1].
Proof.
  intros self msg.
  assert (H1 : IRC_Message.command msg = Some (lit "PRIVMSG")) by reflexivity.
  assert (H2 : IRC_Message.middle msg = Some (35%N :: lit "chan"))
    by reflexivity.
  assert (H3 : IRC_Message.message msg = Some (33%N :: lit "bar x"))
    by reflexivity.
  assert (H4 : forallb (can_reply (ident self) msg (respond_to msg 35%N))
                 (map snd (functions self) ++ on_privmsg self) = true)
    by (vm_compute; reflexivity).
  repeat (split; [assumption|]).
  exact (@handlers_called_by_privmsg self msg 35%N (lit "chan") 33%N
           (lit "bar x") H1 H2 H3 H4).
Defined.

(** The bang-commands of a PRIVMSG, when their replies can be sent. *)
Lemma call_function_events (msg : IRC_Message.t) (target : option str)
    (c : N) (body : str) (self : Bot) :
  IRC_Message.message msg = Some (c :: body) ->
  forallb (can_reply (ident self) msg target) (map snd (functions self))
    = true ->
  exists self',
    __call_function msg target self = (Ok tt, self') /\
    extends self self' (bang_part self msg target c body).
Proof.
  intros Hb Hfs; unfold bang_part.
  destruct (str_eqb [c] (bang (ident self))) eqn:Et.
  - apply str_eqb_eq in Et.
    rewrite (@call_function_trigger msg target c body self Hb Et).
    apply (@call_function_loop_events msg target (c :: body)
             (functions self) Hb 0 self Hfs).
  - apply str_eqb_neq in Et.
    rewrite (@call_function_no_trigger msg target c body self Hb Et).
    exists self; split; [reflexivity|apply extends_refl].
Qed.

(** The generic loop on [pre ++ l] is the loop on [pre] followed by the
    loop on [l]. *)
Lemma call_on_privmsg_loop_app (msg : IRC_Message.t) (target : option str)
    (pre l : list BotFunction) :
  forall (i : nat) (self : Bot),
    call_on_privmsg_loop msg target i (pre ++ l) self =
    (_ <- call_on_privmsg_loop msg target i pre ;;
     call_on_privmsg_loop msg target (List.length pre + i) l) self.
Proof.
  induction pre as [|g pre IH]; intros i self; [reflexivity|].
  cbn [app List.length call_on_privmsg_loop]; unfold bind.
  rewrite call_eq.
  destruct (reply target (reply_of (g (ident self) msg))
              (log (Invoke Generic i) self)) as [[[]|e|] self1];
    try reflexivity.
  rewrite IH; unfold bind.
  replace (List.length pre + S i) with (S (List.length pre + i)) by lia.
  reflexivity.
Qed.

(** X12: the isolation of handler failures does not cover the reply
    itself.  When the text that a generic handler returned, or the [repr]
    of what it raised, cannot be encoded as UTF-8, [privmsg] raises
    [UnicodeEncodeError] outside the [try] statement: the exception
    leaves [dispatch], and the generic handlers behind that one are not
    called. *)
Theorem unencodable_reply_escapes :
  forall (self : Bot) (msg : IRC_Message.t) (c : N) (mid : str)
         (c' : N) (body : str) (pre post : list BotFunction)
         (f : BotFunction) (r : str),
    IRC_Message.command msg = Some (lit "PRIVMSG") ->
    IRC_Message.middle msg = Some (c :: mid) ->
    IRC_Message.message msg = Some (c' :: body) ->
    on_privmsg self = pre ++ f :: post ->
    forallb (can_reply (ident self) msg (respond_to msg c))
      (map snd (functions self) ++ pre) = true ->
    reply_of (f (ident self) msg) = Some r ->
    utf8_encode (privmsg_line (respond_to msg c) r) = None ->
    exists self' t,
      dispatch msg self = (Raise UnicodeEncodeError, self') /\
      trace self' = trace self ++ t /\
      invoked Generic t = seq 0 (S (List.length pre)).
Proof.
  intros self msg c mid c' body pre post f r Hc Hm Hb Hgs Henc Hr Hu.
  rewrite forallb_app in Henc; apply andb_true_iff in Henc as [Hfs Hpre].
  rewrite (dispatch_privmsg msg self Hc Hm); fold (respond_to msg c).
  set (target := respond_to msg c) in *.
  unfold bind at 1.
  set (self1 := log (Stdout (IRC_Message.__str__ msg)) self).
  destruct (@call_function_events msg target c' body self1 Hb Hfs)
    as (self2 & -> & H2).
  pose proof H2 as (_ & Hid & _ & Hg).
  unfold __call_on_privmsg, bind at 1, get; rewrite Hg.
  change (on_privmsg self1) with (on_privmsg self); rewrite Hgs.
  rewrite call_on_privmsg_loop_app; unfold bind at 1.
  destruct (@call_on_privmsg_loop_events msg target pre 0 self2)
    as (self3 & -> & H3); [now rewrite Hid|].
  pose proof H3 as (_ & Hid3 & _).
  rewrite call_on_privmsg_loop_step; unfold bind.
  rewrite Hid3, Hid; change (ident self1) with (ident self); rewrite Hr.
  cbn [reply]; unfold privmsg; fold (privmsg_line target r).
  rewrite (send_unencodable _ _ Hu).
  eexists _, _; split; [reflexivity|split].
  - pose proof (extends_trans (extends_log (Stdout (IRC_Message.__str__ msg))
                                 self)
                  (extends_trans H2
                     (extends_trans H3
                        (extends_log (Invoke Generic (List.length pre + 0))
                           self3)))) as (Ht & _).
    exact Ht.
  - rewrite !invoked_app, invoked_bang_part_generic.
    destruct (invoked_generic_events (ident self2) msg target pre 0)
      as [-> _].
    cbn [invoked flat_map app]; rewrite Nat.add_0_r.
    rewrite seq_S; reflexivity.
Qed.

Lemma unencodable_reply_escapes_witness :
  let self := fresh (peer []) sample []
                [pong_back; lone_surrogate; pong_back] in
  let msg := {| IRC_Message.prefix := Some (lit ":nick!user@host");
                IRC_Message.nickname := Some (lit "nick");
                IRC_Message.command := Some (lit "PRIVMSG");
                IRC_Message.middle := Some (lit "#chan");
                IRC_Message.trailing := Some (lit ":hello");
                IRC_Message.message := Some (lit "hello") |} in
  IRC_Message.command msg = Some (lit "PRIVMSG") /\
  IRC_Message.middle msg = Some (35%N :: lit "chan") /\
  IRC_Message.message msg = Some (104%N :: lit "ello") /\
  on_privmsg self = [pong_back] ++ lone_surrogate :: [pong_back] /\
  forallb (can_reply (ident self) msg (respond_to msg 35%N))
    (map snd (functions self) ++ [pong_back]) = true /\
  reply_of (lone_surrogate (ident self) msg) = Some [55296%N] /\
  utf8_encode (privmsg_line (respond_to msg 35%N) [55296%N]) = None /\
  exists self' t,
    dispatch msg self = (Raise UnicodeEncodeError, self') /\
    trace self' = trace self ++ t /\
    invoked Generic t = seq 0 2.
Proof.
  intros self msg.
  assert (H1 : IRC_Message.command msg = Some (lit "PRIVMSG")) by reflexivity.
  assert (H2 : IRC_Message.middle msg = Some (35%N :: lit "chan"))
    by reflexivity.
  assert (H3 : IRC_Message.message msg = Some (104%N :: lit "ello"))
    by reflexivity.
  assert (H4 : on_privmsg self = [pong_back] ++ lone_surrogate :: [pong_back])
    by reflexivity.
  assert (H5 : forallb (can_reply (ident self) msg (respond_to msg 35%N))
                 (map snd (functions self) ++ [pong_back]) = true)
    by (vm_compute; reflexivity).
  assert (H6 : reply_of (lone_surrogate (ident self) msg) = Some [55296%N])
    by reflexivity.
  assert (H7 : utf8_encode (privmsg_line (respond_to msg 35%N) [55296%N])
               = None) by (vm_compute; reflexivity).
  repeat (split; [assumption|]).
  exact (@unencodable_reply_escapes self msg 35%N (lit "chan") 104%N
           (lit "ello") [pong_back] [pong_back] lone_surrogate [55296%N]
           H1 H2 H3 H4 H5 H6 H7).
Defined.

(** ** Construction and registration *)

(** X13: a bot built with the constructor registers with [NICK <nick>]
    CR LF followed by [USER <user> <mode> * :<realname>], the user name
    and the real name being the nickname when none was given; the second
    line is not terminated.  Registering sends these two buffers and
    nothing else, and leaves the configuration as the constructor set
    it. *)
Theorem constructed_bot_registers :
  forall (s : Socket) (chan nk : str) (un : option str) (md : Z)
         (fn : option str) (bg : str) fs gs (d1 d2 : bytes),
    let self := Bot_init s chan nk un md fn bg fs gs in
    let user_name := match un with None => nk | Some u => u end in
    let real_name := match fn with None => nk | Some f => f end in
    utf8_encode (lit "NICK " ++ nk ++ CRLF) = Some d1 ->
    utf8_encode (lit "USER " ++ user_name ++ lit " " ++ str_of_int md
                 ++ lit " * :" ++ real_name) = Some d2 ->
    exists self',
      register self = (Ok tt, self') /\
      trace self' = [Send d1; Send d2] /\
      ident self' = ident self /\
      functions self' = functions self /\
      on_privmsg self' = on_privmsg self.
Proof.
  intros s chan nk un md fn bg fs gs d1 d2 self user_name real_name H1 H2.
  unfold register, bind at 1, get.
  unfold bind at 1, nick, bind at 1, modify.
  change (nickname (ident self)) with nk.
  rewrite (send_encoded _ _ H1).
  unfold bind at 1, get, user, bind at 1, modify.
  cbn [ident after_send sock_send snd log set_sock set_ident
       username mode fullname self Bot_init].
  fold user_name real_name.
  rewrite (send_encoded _ _ H2).
  eexists; split; [reflexivity|].
  repeat split.
Qed.

Lemma constructed_bot_registers_witness :
  let self := Bot_init (peer []) (lit "#chan") (lit "bot") None 0 None
                (lit "!") None None in
  utf8_encode (lit "NICK " ++ lit "bot" ++ CRLF)
    = Some (blit "NICK bot" ++ [x0d; x0a]) /\
  utf8_encode (lit "USER " ++ lit "bot" ++ lit " " ++ str_of_int 0
               ++ lit " * :" ++ lit "bot")
    = Some (blit "USER bot 0 * :bot") /\
  exists self',
    register self = (Ok tt, self') /\
    trace self' = [Send (blit "NICK bot" ++ [x0d; x0a]);
                   Send (blit "USER bot 0 * :bot")] /\
    ident self' = ident self /\
    functions self' = functions self /\
    on_privmsg self' = on_privmsg self.
Proof.
  intros self; split; [reflexivity|split; [reflexivity|]].
  apply (@constructed_bot_registers (peer []) (lit "#chan") (lit "bot")
           None 0%Z None (lit "!") None None);
    reflexivity.
Defined.

(** ** From one end to the other *)

(** X14: what one end sends, the other reads.  When the socket takes a
    line whole and the line ends with a line feed and fits one read, the
    bytes that [send] puts on the wire are decoded by [_read_buffer] into
    the text that was sent. *)
Theorem sent_line_is_read_back :
  forall (s : str) (data : bytes) (sender receiver : Bot)
         (rest : list bytes) (fuel : nat),
    utf8_encode s = Some data ->
    one_read data && ends_lf data = true ->
    accepts (sock sender) = [] ->
    inbound (sock receiver) = data :: rest ->
    exists sender',
      send s sender = (Ok tt, sender') /\
      wire (sock sender') = wire (sock sender) ++ data /\
      _read_buffer fuel receiver = (Ok (Some s), delivered rest receiver).
Proof.
  intros s data sender receiver rest fuel Henc Hdata Hacc Hin.
  apply andb_true_iff in Hdata as [Hone Hend].
  exists (after_send data sender).
  split; [now apply send_encoded|split].
  - unfold after_send, sock_send; cbn [snd log set_sock sock wire].
    now rewrite Hacc, firstn_all.
  - unfold _read_buffer, bind at 1.
    rewrite (recv_chunk _ Hin Hone).
    destruct (one_read_spec _ Hone) as [Hne _].
    destruct data as [|b data]; [contradiction|].
    change (List.length (b :: data) <? 1) with false; cbv iota.
    unfold bind at 1; rewrite read_loop_done by exact Hend.
    unfold bind, lift; rewrite (utf8_round_trip _ Henc); reflexivity.
Qed.

Lemma sent_line_is_read_back_witness :
  let s := lit "PRIVMSG #chan " ++ [233%N; 8364%N] ++ CRLF in
  let data := blit "PRIVMSG #chan " ++ [xc3; xa9; xe2; x82; xac; x0d; x0a] in
  let sender := fresh (peer []) sample [] [] in
  let receiver := fresh (peer [data]) sample [] [] in
  utf8_encode s = Some data /\
  one_read data && ends_lf data = true /\
  accepts (sock sender) = [] /\
  inbound (sock receiver) = data :: [] /\
  exists sender',
    send s sender = (Ok tt, sender') /\
    wire (sock sender') = wire (sock sender) ++ data /\
    _read_buffer 0 receiver = (Ok (Some s), delivered [] receiver).
Proof.
  intros s data sender receiver.
  assert (H1 : utf8_encode s = Some data) by reflexivity.
  assert (H2 : one_read data && ends_lf data = true) by reflexivity.
  assert (H3 : accepts (sock sender) = []) by reflexivity.
  assert (H4 : inbound (sock receiver) = data :: []) by reflexivity.
  repeat (split; [assumption|]).
  exact (@sent_line_is_read_back s data sender receiver [] 0 H1 H2 H3 H4).
Defined.

(** ** A read as a whole *)

Lemma parse_batch_raises (lines : list str) :
  existsb (startswith (lit " ")) lines = true ->
  _parse_irc_messages lines = Raise IndexError.
Proof.
  induction lines as [|l lines IH]; [discriminate|].
  cbn [existsb _parse_irc_messages].
  destruct (startswith (lit " ") l) eqn:E.
  - intros _; destruct l as [|c s]; [discriminate|].
    change (lit " ") with [32%N] in E; rewrite startswith_char in E.
    apply N.eqb_eq in E; subst c.
    now rewrite parse_leading_space.
  - cbn [orb]; intros H.
    destruct (parse_no_leading_space _ E) as [m ->].
    cbn [res_bind]; now rewrite IH.
Qed.

Lemma parse_batch_ok (lines : list str) :
  existsb (startswith (lit " ")) lines = false ->
  exists ms,
    _parse_irc_messages lines = Ok ms /\
    Forall2 (fun l m => IRC_Message.__init__ l = Ok m) lines ms.
Proof.
  induction lines as [|l lines IH]; [exists []; split; constructor|].
  cbn [existsb _parse_irc_messages]; intros H.
  apply orb_false_iff in H as [E H].
  destruct (parse_no_leading_space _ E) as [m Hm].
  destruct (IH H) as (ms & Hms & Hall).
  exists (m :: ms); rewrite Hm, Hms; split; [reflexivity|].
  now constructor.
Qed.

Lemma recv_keeps_messages (n : nat) (self : Bot) :
  messages (snd (recv n self)) = messages self.
Proof. unfold recv; destruct (inbound (sock self)); reflexivity. Qed.

Lemma read_loop_keeps_messages (fuel : nat) :
  forall (buf : bytes) (self : Bot),
    messages (snd (read_loop fuel buf self)) = messages self.
Proof.
  induction fuel as [|fuel IH]; intros buf self; cbn [read_loop];
    unfold bind at 1, lift at 1.
  - destruct (getlast buf) as [b|e|]; try reflexivity.
    destruct (negb _); reflexivity.
  - destruct (getlast buf) as [b|e|]; try reflexivity.
    destruct (negb _); [|reflexivity].
    unfold bind.
    pose proof (recv_keeps_messages 1024 self) as Hr.
    destruct (recv_ok 1024 self) as [chunk Hc].
    destruct (recv 1024 self) as [r self1]; cbn [fst snd] in *; subst r.
    now rewrite IH.
Qed.

Lemma read_buffer_keeps_messages (fuel : nat) (self : Bot) :
  messages (snd (_read_buffer fuel self)) = messages self.
Proof.
  unfold _read_buffer, bind at 1.
  pose proof (recv_keeps_messages 1024 self) as Hr.
  destruct (recv_ok 1024 self) as [chunk Hc].
  destruct (recv 1024 self) as [r self1]; cbn [fst snd] in *; subst r.
  destruct (List.length chunk <? 1); [exact Hr|].
  unfold bind at 1.
  pose proof (read_loop_keeps_messages fuel chunk self1) as Hl.
  destruct (read_loop fuel chunk self1) as [[buf|e|] self2]; cbn [snd] in *;
    try congruence.
  unfold bind, lift.
  destruct (utf8_decode buf); cbn; congruence.
Qed.

(** X15: [run] parses all the lines of a read before it dispatches any.
    When one of the lines begins with a space, [run] raises [IndexError]
    with nothing printed, sent or called, and with the messages of the
    read before still in place; otherwise every line is parsed and the
    messages are dispatched in the order of the lines. *)
Theorem run_parses_before_dispatching :
  forall (fuel : nat) (self self1 : Bot) (text : str),
    _read_buffer fuel self = (Ok (Some text), self1) ->
    let lines := removelast (split CRLF text) in
    if existsb (startswith (lit " ")) lines then
      run fuel self = (Raise IndexError, self1) /\
      trace self1 = trace self /\
      messages self1 = messages self
    else
      exists ms,
        Forall2 (fun l m => IRC_Message.__init__ l = Ok m) lines ms /\
        run fuel self = dispatch_all ms (set_messages ms self1).
Proof.
  intros fuel self self1 text Hb lines.
  destruct (existsb (startswith (lit " ")) lines) eqn:E.
  - split; [|split].
    + unfold run, bind at 1, read, bind at 1; rewrite Hb.
      unfold bind, lift; fold lines.
      now rewrite (parse_batch_raises _ E).
    + pose proof (read_buffer_input_only fuel self) as (Ht & _).
      now rewrite Hb in Ht.
    + pose proof (read_buffer_keeps_messages fuel self) as Hm.
      now rewrite Hb in Hm.
  - destruct (parse_batch_ok _ E) as (ms & Hms & Hall).
    exists ms; split; [exact Hall|].
    unfold run, bind at 1, read, bind at 1; rewrite Hb.
    unfold bind, lift, get, modify; fold lines; rewrite Hms.
    reflexivity.
Qed.

Lemma run_parses_before_dispatching_witness :
  let chunk := blit "PING :abc" ++ [x0d; x0a] ++ blit " PING :def"
               ++ [x0d; x0a] in
  let self := fresh (peer [chunk]) sample [] [] in
  let text := lit "PING :abc" ++ CRLF ++ lit " PING :def" ++ CRLF in
  _read_buffer 0 self = (Ok (Some text), delivered [] self) /\
  run 0 self = (Raise IndexError, delivered [] self) /\
  trace (delivered [] self) = trace self /\
  messages (delivered [] self) = messages self.
Proof.
  intros chunk self text.
  assert (H : _read_buffer 0 self = (Ok (Some text), delivered [] self))
    by (vm_compute; reflexivity).
  split; [exact H|].
  exact (@run_parses_before_dispatching 0 self (delivered [] self) text H).
Defined.

(** ** The codec, the other way round *)

Section Codec.

Local Open Scope N_scope.

Lemma byte_of_to_N (b : byte) : byte_of (Byte.to_N b) = b.
Proof.
  unfold byte_of; rewrite N.mod_small.
  - now rewrite Byte.of_to_N.
  - pose proof (Byte.to_N_bounded b); lia.
Qed.

Lemma option_map_cons_some (c : N) (o : option str) (s : str) :
  option_map (cons c) o = Some s -> exists s', s = c :: s' /\ o = Some s'.
Proof.
  destruct o as [s'|]; [|discriminate].
  intros [= <-]; now exists s'.
Qed.

Ltac split_tests H :=
  repeat match type of H with
         | context [N.ltb ?a ?b] =>
             destruct (N.ltb_spec a b); cbn [andb orb negb] in H
         | context [N.leb ?a ?b] =>
             destruct (N.leb_spec a b); cbn [andb orb negb] in H
         end;
  try discriminate H.

Lemma encode_decode_bytes (n : nat) :
  forall (bs : bytes) (s : str),
    (List.length bs <= n)%nat ->
    decode_go 0 0 0 bs = Some s -> utf8_encode s = Some bs.
Proof.
  induction n as [|n IH]; intros bs s Hn Hd.
  - destruct bs; [|cbn in Hn; lia].
    cbn in Hd; injection Hd as <-; reflexivity.
  - destruct bs as [|b0 bs]; [cbn in Hd; injection Hd as <-; reflexivity|].
    cbn [decode_go] in Hd.
    pose proof (Byte.to_N_bounded b0) as B0.
    rewrite <- (byte_of_to_N b0).
    set (n0 := Byte.to_N b0) in *.
    destruct (N.ltb_spec n0 128).
    { apply option_map_cons_some in Hd as (s' & -> & Hd).
      cbn [utf8_encode]; unfold encode_cp.
      destruct (N.ltb_spec n0 128); [|lia].
      rewrite (IH bs s') by (assumption || (cbn in Hn; lia)).
      reflexivity. }
    destruct (N.ltb_spec n0 192); [discriminate|].
    destruct bs as [|b1 bs];
      [destruct (n0 <? 224), (n0 <? 240), (n0 <? 248); discriminate|].
    pose proof (Byte.to_N_bounded b1) as B1.
    rewrite <- (byte_of_to_N b1).
    destruct (N.ltb_spec n0 224).
    { cbn [decode_go] in Hd; unfold is_cont, low6 in Hd.
      set (n1 := Byte.to_N b1) in *.
      split_tests Hd.
      all: apply option_map_cons_some in Hd as (s' & -> & Hd).
      all: cbn [utf8_encode]; unfold encode_cp.
      all: set (c := n0 mod 32 * 64 + n1 mod 64) in *.
      all: assert (Hc : 128 <= c < 2048) by (subst c; div_lia).
      all: destruct (N.ltb_spec c 128); [lia|].
      all: destruct (N.ltb_spec c 2048); [|lia].
      all: rewrite (IH bs s') by (assumption || (cbn in Hn; lia)).
      all: cbn [app].
      all: replace (192 + c / 64) with n0 by (subst c; div_lia).
      all: replace (128 + c mod 64) with n1 by (subst c; div_lia).
      all: reflexivity. }
    destruct bs as [|b2 bs];
      [cbn [decode_go] in Hd;
       destruct (n0 <? 240), (n0 <? 248), (is_cont b1); discriminate|].
    pose proof (Byte.to_N_bounded b2) as B2.
    rewrite <- (byte_of_to_N b2).
    destruct (N.ltb_spec n0 240).
    { cbn [decode_go] in Hd; unfold is_cont, low6 in Hd.
      set (n1 := Byte.to_N b1) in *. set (n2 := Byte.to_N b2) in *.
      split_tests Hd.
      all: apply option_map_cons_some in Hd as (s' & -> & Hd).
      all: cbn [utf8_encode]; unfold encode_cp.
      all: set (c := (n0 mod 16 * 64 + n1 mod 64) * 64 + n2 mod 64) in *.
      all: assert (Hc : 2048 <= c < 65536) by (subst c; div_lia).
      all: destruct (N.ltb_spec c 128); [lia|].
      all: destruct (N.ltb_spec c 2048); [lia|].
      all: destruct (N.ltb_spec c 65536); [|lia].
      all: destruct (N.leb_spec 55296 c); destruct (N.leb_spec c 57343);
        cbn [andb]; try lia.
      all: rewrite (IH bs s') by (assumption || (cbn in Hn; lia)).
      all: cbn [app].
      all: replace (224 + c / 4096) with n0 by (subst c; div_lia).
      all: replace (128 + (c / 64) mod 64) with n1 by (subst c; div_lia).
      all: replace (128 + c mod 64) with n2 by (subst c; div_lia).
      all: reflexivity. }
    destruct bs as [|b3 bs];
      [cbn [decode_go] in Hd;
       destruct (n0 <? 248), (is_cont b1), (is_cont b2); discriminate|].
    pose proof (Byte.to_N_bounded b3) as B3.
    rewrite <- (byte_of_to_N b3).
    destruct (N.ltb_spec n0 248); [|discriminate].
    cbn [decode_go] in Hd; unfold is_cont, low6 in Hd.
    set (n1 := Byte.to_N b1) in *. set (n2 := Byte.to_N b2) in *.
    set (n3 := Byte.to_N b3) in *.
    split_tests Hd.
    all: apply option_map_cons_some in Hd as (s' & -> & Hd).
    all: cbn [utf8_encode]; unfold encode_cp.
    all: set (c := ((n0 mod 8 * 64 + n1 mod 64) * 64 + n2 mod 64) * 64
                   + n3 mod 64) in *.
    all: assert (Hc : 65536 <= c < 1114112) by lia.
    all: destruct (N.ltb_spec c 128); [lia|].
    all: destruct (N.ltb_spec c 2048); [lia|].
    all: destruct (N.ltb_spec c 65536); [lia|].
    all: destruct (N.ltb_spec c 1114112); [|lia].
    all: rewrite (IH bs s') by (assumption || (cbn in Hn; lia)).
    all: cbn [app].
    all: replace (240 + c / 262144) with n0 by (subst c; div_lia).
    all: replace (128 + (c / 4096) mod 64) with n1 by (subst c; div_lia).
    all: replace (128 + (c / 64) mod 64) with n2 by (subst c; div_lia).
    all: replace (128 + c mod 64) with n3 by (subst c; div_lia).
    all: reflexivity.
Qed.

End Codec.

(** X16: the text that [_read_buffer] returns can always be sent: its
    encoding is the very bytes it was decoded from, so that [send] does
    not raise [UnicodeEncodeError] on it. *)
Theorem read_text_can_be_sent :
  forall (fuel : nat) (receiver receiver' sender : Bot) (text : str),
    _read_buffer fuel receiver = (Ok (Some text), receiver') ->
    exists data,
      utf8_decode data = Some text /\
      send text sender = (Ok tt, after_send data sender).
Proof.
  intros fuel receiver receiver' sender text.
  unfold _read_buffer, bind at 1.
  destruct (recv 1024 receiver) as [[chunk|e|] self1]; try discriminate.
  destruct (List.length chunk <? 1); [discriminate|].
  unfold bind at 1.
  destruct (read_loop fuel chunk self1) as [[buf|e|] self2];
    try discriminate.
  unfold bind, lift.
  destruct (utf8_decode buf) as [t|] eqn:Hd; [|discriminate].
  intros [= -> _]; exists buf; split; [exact Hd|].
  apply send_encoded, (@encode_decode_bytes (List.length buf)); auto.
Qed.

Lemma read_text_can_be_sent_witness :
  let data := blit "PRIVMSG #chan :" ++ [xc3; xa9; x0d; x0a] in
  let receiver := fresh (peer [data]) sample [] [] in
  let sender := fresh (peer []) sample [] [] in
  let text := lit "PRIVMSG #chan :" ++ [233%N] ++ CRLF in
  _read_buffer 0 receiver = (Ok (Some text), delivered [] receiver) /\
  exists data',
    utf8_decode data' = Some text /\
    send text sender = (Ok tt, after_send data' sender).
Proof.
  intros data receiver sender text.
  assert (H : _read_buffer 0 receiver
              = (Ok (Some text), delivered [] receiver))
    by (vm_compute; reflexivity).
  split; [exact H|].
  exact (@read_text_can_be_sent 0 receiver (delivered [] receiver) sender
           text H).
Defined.

(** ** The general form of two departures *)

Lemma send_partial_witness :
  let s := lit "JOIN #chan" ++ CRLF in
  let data := blit "JOIN #chan" ++ [x0d; x0a] in
  let self := fresh {| inbound := []; accepts := [4; 8]; wire := [] |}
                sample [] [] in
  utf8_encode s = Some data /\
  accepts (sock self) = 4 :: [8] /\
  4 < List.length data /\
  exists self',
    send s self = (Ok tt, self') /\
    wire (sock self') = wire (sock self) ++ firstn 4 data /\
    wire (sock self') <> wire (sock self) ++ data.
Proof.
  intros s data self.
  assert (H1 : utf8_encode s = Some data) by reflexivity.
  assert (H2 : accepts (sock self) = 4 :: [8]) by reflexivity.
  assert (H3 : 4 < List.length data) by (cbn; lia).
  repeat (split; [assumption|]).
  exact (@send_partial s data 4 [8] self H1 H2 H3).
Defined.

Lemma read_buffer_closed_midline_witness :
  let self := fresh (peer [blit "PING :abc"]) sample [] [] in
  inbound (sock self) = [blit "PING :abc"] /\
  one_read (blit "PING :abc") = true /\
  ends_lf (blit "PING :abc") = false /\
  _read_buffer 1000 self = (OutOfFuel, delivered [] self).
Proof.
  intros self.
  assert (H1 : inbound (sock self) = [blit "PING :abc"]) by reflexivity.
  assert (H2 : one_read (blit "PING :abc") = true) by reflexivity.
  assert (H3 : ends_lf (blit "PING :abc") = false) by reflexivity.
  repeat (split; [assumption|]).
  exact (@read_buffer_closed_midline (blit "PING :abc") 1000 self H1 H2 H3).
Defined.

(** ** A PING without a parameter *)

(** X20: a PING that has a prefix and no parameter, [:<server> PING], is
    answered with the text of [None]: the bot sends [PONG None] CR LF. *)
Theorem ping_without_parameter :
  forall (srv : str) (self : Bot),
    ~ In 32%N srv ->
    exists s,
      handle_line (lit ":" ++ srv ++ lit " PING") self =
      (Ok tt,
       after_send (blit "PONG None" ++ [x0d; x0a]) (log (Stdout s) self)).
Proof.
  intros srv self Hsrv.
  assert (Hw : split (lit " ") (lit ":" ++ srv ++ lit " PING")
               = (58%N :: srv) :: [lit "PING"]).
  { change (lit ":" ++ srv ++ lit " PING")
      with ((58%N :: srv) ++ 32%N :: lit "PING").
    change (lit " ") with [32%N].
    rewrite split_until by (intros [E|H]; [discriminate|contradiction]).
    reflexivity. }
  pose proof (@parse_tokens _ 58%N srv (lit "PING") [] Hw) as Hp.
  rewrite (@handle_line_parsed _ _ self Hp).
  eexists; apply dispatch_ping; [reflexivity|].
  unfold of_tokens; cbn [firstn].
  change (str_eqb [58%N] (lit ":")) with true; cbv iota zeta.
  cbn [IRC_Message.middle pos].
  destruct (str_eqb (58%N :: srv) (lit "PING")) eqn:E;
    [apply str_eqb_eq in E; discriminate|].
  rewrite str_eqb_refl; reflexivity.
Qed.

Lemma ping_without_parameter_witness :
  ~ In 32%N (lit "srv") /\
  exists s,
    handle_line (lit ":" ++ lit "srv" ++ lit " PING")
      (fresh (peer []) sample [] []) =
    (Ok tt,
     after_send (blit "PONG None" ++ [x0d; x0a])
       (log (Stdout s) (fresh (peer []) sample [] []))).
Proof.
  assert (H : ~ In 32%N (lit "srv")) by (cbn; intuition discriminate).
  split; [exact H|].
  exact (@ping_without_parameter (lit "srv") (fresh (peer []) sample [] []) H).
Defined.

(** ** Handlers that fail, and the replies that leave *)

Lemma dispatch_route (msg : IRC_Message.t) (self : Bot) :
  dispatch msg self = route msg (log (Stdout (IRC_Message.__str__ msg)) self).
Proof. reflexivity. Qed.

Lemma sends_only_route (msg : IRC_Message.t) : sends_only (route msg).
Proof.
  unfold route.
  apply sends_only_bind; [apply sends_only_get|intros self].
  destruct (IRC_Message.command msg) as [cmd|]; [|apply sends_only_ret].
  destruct (str_eqb cmd (lit "PING")); [apply sends_only_send|].
  destruct (str_eqb cmd (lit "001")); [apply sends_only_send|].
  destruct (str_eqb cmd (lit "PRIVMSG")); [|apply sends_only_ret].
  apply sends_only_bind; [apply sends_only_lift|intros mid].
  apply sends_only_bind; [apply sends_only_lift|intros c].
  apply sends_only_bind.
  - unfold __call_function.
    apply sends_only_bind; [apply sends_only_get|intros self'].
    apply sends_only_bind; [apply sends_only_lift|intros body].
    apply sends_only_bind; [apply sends_only_lift|intros c'].
    destruct (negb _); [apply sends_only_ret|].
    apply sends_only_call_function_loop.
  - intros _; unfold __call_on_privmsg.
    apply sends_only_bind; [apply sends_only_get|intros self'].
    apply sends_only_call_on_privmsg_loop.
Qed.

Lemma sends_only_dispatch_all (msgs : list IRC_Message.t) :
  sends_only (dispatch_all msgs).
Proof.
  induction msgs as [|msg msgs IH]; cbn [dispatch_all];
    [apply sends_only_ret|].
  apply sends_only_bind; [apply sends_only_dispatch|intros _; exact IH].
Qed.

(** The loop of [run] begins with the first message: whatever follows,
    the first thing it does is to print it. *)
Lemma dispatch_all_prints_first (next : IRC_Message.t)
    (rest : list IRC_Message.t) (self : Bot) :
  exists t,
    trace (snd (dispatch_all (next :: rest) self)) =
    trace self ++ Stdout (IRC_Message.__str__ next) :: t.
Proof.
  assert (E : dispatch_all (next :: rest) self =
              (_ <- route next ;; dispatch_all rest)
                (log (Stdout (IRC_Message.__str__ next)) self))
    by reflexivity.
  rewrite E.
  assert (S : sends_only (_ <- route next ;; dispatch_all rest)).
  { apply sends_only_bind; [apply sends_only_route|].
    intros _; apply sends_only_dispatch_all. }
  destruct (S (log (Stdout (IRC_Message.__str__ next)) self))
    as (_ & _ & _ & _ & _ & [t Ht] & _).
  exists t; rewrite Ht; cbn [trace log].
  now rewrite <- app_assoc.
Qed.

(** The bang-command loop, when the replies of the registrations it
    calls can be sent. *)
Lemma call_function_loop_called (msg : IRC_Message.t) (target : option str)
    (body : str) (fs : list (str * BotFunction)) :
  IRC_Message.message msg = Some body ->
  forall i self,
    forallb (can_reply (ident self) msg target)
      (map snd (firstn (leading (bang_word body) fs) fs)) = true ->
    exists self',
      call_function_loop msg target i fs self = (Ok tt, self') /\
      extends self self'
        (bang_events (ident self) msg target (bang_word body) i fs).
Proof.
  intros Hbody; induction fs as [|[b f] fs IH]; intros i self Henc.
  - exists self; split; [reflexivity|apply extends_refl].
  - cbn [bang_events leading] in *.
    destruct (str_eqb (bang_word body) b) eqn:Eb.
    + apply str_eqb_eq in Eb.
      cbn [firstn map forallb snd] in Henc.
      apply andb_true_iff in Henc as [Hf Henc].
      rewrite (@call_function_loop_match msg target body b f fs i self
                 Hbody Eb).
      unfold bind.
      destruct (@call_and_reply Bang i target
                  (reply_of (f (ident self) msg)) self Hf)
        as (self1 & -> & Hext).
      pose proof Hext as (_ & Hid & _).
      destruct (IH (S i) self1) as (self' & E & Hext');
        [now rewrite Hid|].
      exists self'; split; [exact E|].
      rewrite Hid in Hext'; apply (extends_trans Hext Hext').
    + apply str_eqb_neq in Eb.
      rewrite (@call_function_loop_mismatch msg target body b f fs i self
                 Hbody Eb).
      exists self; split; [reflexivity|apply extends_refl].
Qed.

(** All that [dispatch] does with a PRIVMSG, when the replies of the
    handlers it calls can be sent. *)
Lemma dispatch_privmsg_called (msg : IRC_Message.t) (c : N) (mid : str)
    (c' : N) (body : str) (self : Bot) :
  IRC_Message.command msg = Some (lit "PRIVMSG") ->
  IRC_Message.middle msg = Some (c :: mid) ->
  IRC_Message.message msg = Some (c' :: body) ->
  let target := respond_to msg c in
  forallb (can_reply (ident self) msg target) (called self c' body) = true ->
  exists self',
    dispatch msg self = (Ok tt, self') /\
    extends self self'
      ([Stdout (IRC_Message.__str__ msg)]
       ++ bang_part self msg target c' body
       ++ generic_events (ident self) msg target 0 (on_privmsg self)).
Proof.
  intros Hc Hm Hb target Henc; unfold called in Henc.
  rewrite forallb_app in Henc; apply andb_true_iff in Henc as [Hfs Hgs].
  rewrite (dispatch_privmsg msg self Hc Hm); fold (respond_to msg c).
  fold target; unfold bind at 1.
  set (self1 := log (Stdout (IRC_Message.__str__ msg)) self).
  assert (H1 : extends self self1 [Stdout (IRC_Message.__str__ msg)])
    by apply extends_log.
  assert (Hbang : exists self2,
             __call_function msg target self1 = (Ok tt, self2) /\
             extends self1 self2 (bang_part self msg target c' body)).
  { unfold bang_part.
    destruct (str_eqb [c'] (bang (ident self))) eqn:Et.
    - apply str_eqb_eq in Et.
      rewrite (@call_function_trigger msg target c' body self1 Hb Et).
      apply (@call_function_loop_called msg target (c' :: body)
               (functions self) Hb 0 self1 Hfs).
    - apply str_eqb_neq in Et.
      rewrite (@call_function_no_trigger msg target c' body self1 Hb Et).
      exists self1; split; [reflexivity|apply extends_refl]. }
  destruct Hbang as (self2 & -> & H2).
  pose proof H2 as (_ & Hid & _ & Hg).
  unfold __call_on_privmsg, bind, get; rewrite Hg.
  destruct (@call_on_privmsg_loop_events msg target (on_privmsg self) 0 self2)
    as (self3 & E & H3); [now rewrite Hid|].
  change (on_privmsg self1) with (on_privmsg self); rewrite E.
  exists self3; split; [reflexivity|].
  rewrite Hid in H3.
  apply (extends_trans H1 (extends_trans H2 H3)).
Qed.

(** A registration behind registrations that all bear the word is among
    those called. *)
Lemma leading_reaches (word : str) (pre post : list (str * BotFunction))
    (f : BotFunction) :
  Forall (fun bf => fst bf = word) pre ->
  In f (map snd (firstn (leading word (pre ++ (word, f) :: post))
                   (pre ++ (word, f) :: post))).
Proof.
  induction 1 as [|[b g] pre Hb _ IH].
  - cbn [app leading]; rewrite str_eqb_refl; now left.
  - cbn [fst] in Hb; subst b.
    cbn [app leading]; rewrite str_eqb_refl; now right.
Qed.

(** C5, as the code has it: take a PRIVMSG that reaches the handlers
    (its middle parameter and its body are not empty) and let the reply
    of every handler that it calls be encodable as UTF-8.  If a
    bang-command handler that is called raises, or if a generic handler
    raises, the exception is caught, its [repr] is sent as a PRIVMSG to
    the reply target, every generic handler that had not run yet is
    called afterwards, and [dispatch] returns: in the loop of [run] the
    message that follows is the next to be printed. *)
Theorem handler_failure_is_isolated :
  forall (self : Bot) (msg : IRC_Message.t) (c : N) (mid : str)
         (c' : N) (body : str),
    IRC_Message.command msg = Some (lit "PRIVMSG") ->
    IRC_Message.middle msg = Some (c :: mid) ->
    IRC_Message.message msg = Some (c' :: body) ->
    let target := respond_to msg c in
    forallb (can_reply (ident self) msg target) (called self c' body)
      = true ->
    (forall pre b f post e,
       functions self = pre ++ (b, f) :: post ->
       [c'] = bang (ident self) ->
       Forall (fun bf => fst bf = bang_word (c' :: body)) pre ->
       b = bang_word (c' :: body) ->
       f (ident self) msg = Raises e ->
       exists self' t1 t2 data,
         dispatch msg self = (Ok tt, self') /\
         utf8_encode (privmsg_line target e) = Some data /\
         trace self' =
           trace self ++ t1
           ++ [Invoke Bang (List.length pre); Send data] ++ t2 /\
         invoked Generic t2 = seq 0 (List.length (on_privmsg self)) /\
         forall next rest,
         exists t,
           trace (snd (dispatch_all (msg :: next :: rest) self)) =
           trace self' ++ Stdout (IRC_Message.__str__ next) :: t) /\
    (forall pre f post e,
       on_privmsg self = pre ++ f :: post ->
       f (ident self) msg = Raises e ->
       exists self' t1 t2 data,
         dispatch msg self = (Ok tt, self') /\
         utf8_encode (privmsg_line target e) = Some data /\
         trace self' =
           trace self ++ t1
           ++ [Invoke Generic (List.length pre); Send data] ++ t2 /\
         invoked Generic t2 = seq (S (List.length pre)) (List.length post) /\
         forall next rest,
         exists t,
           trace (snd (dispatch_all (msg :: next :: rest) self)) =
           trace self' ++ Stdout (IRC_Message.__str__ next) :: t).
Proof.
  intros self msg c mid c' body Hc Hm Hb target Henc.
  destruct (dispatch_privmsg_called msg self Hc Hm Hb Henc)
    as (self' & Hd & Ht & _).
  fold target in Ht.
  assert (Hnext : forall next rest,
             exists t,
               trace (snd (dispatch_all (msg :: next :: rest) self)) =
               trace self' ++ Stdout (IRC_Message.__str__ next) :: t).
  { intros next rest.
    assert (E : dispatch_all (msg :: next :: rest) self
                = dispatch_all (next :: rest) self')
      by (cbn [dispatch_all]; unfold bind at 1; now rewrite Hd).
    rewrite E; apply dispatch_all_prints_first. }
  assert (Hraise : forall f e,
             In f (called self c' body) ->
             f (ident self) msg = Raises e ->
             exists data, utf8_encode (privmsg_line target e) = Some data).
  { intros f e Hin He.
    rewrite forallb_forall in Henc; specialize (Henc f Hin).
    unfold can_reply, encodable in Henc; rewrite He in Henc.
    cbn [reply_of] in Henc.
    destruct (utf8_encode (privmsg_line target e)) as [data|];
      [now exists data|discriminate]. }
  split.
  - intros pre b f post e Hfs Htrig Hpre Hword He.
    destruct (Hraise f e) as [data Hdata]; [|exact He|].
    { unfold called; apply in_or_app; left.
      rewrite <- Htrig, str_eqb_refl, Hfs, Hword.
      now apply leading_reaches. }
    exists self',
      ([Stdout (IRC_Message.__str__ msg)]
       ++ bang_events (ident self) msg target (bang_word (c' :: body)) 0 pre),
      (bang_events (ident self) msg target (bang_word (c' :: body))
         (S (List.length pre)) post
       ++ generic_events (ident self) msg target 0 (on_privmsg self)),
      data.
    split; [exact Hd|split; [exact Hdata|split; [|split; [|exact Hnext]]]].
    + rewrite Ht; unfold bang_part.
      rewrite <- Htrig, str_eqb_refl, Hfs.
      rewrite (bang_events_app _ _ _ _ Hpre).
      cbn [bang_events]; rewrite Hword, str_eqb_refl, He.
      unfold call_events; cbn [reply_of]; rewrite Hdata.
      rewrite Nat.add_0_r, <- !app_assoc; reflexivity.
    + rewrite invoked_app, invoked_bang_events.
      apply (invoked_generic_events (ident self) msg target
               (on_privmsg self) 0).
  - intros pre f post e Hgs He.
    destruct (Hraise f e) as [data Hdata]; [|exact He|].
    { unfold called; apply in_or_app; right; rewrite Hgs.
      apply in_or_app; right; left; reflexivity. }
    exists self',
      ([Stdout (IRC_Message.__str__ msg)]
       ++ bang_part self msg target c' body
       ++ generic_events (ident self) msg target 0 pre),
      (generic_events (ident self) msg target (S (List.length pre)) post),
      data.
    split; [exact Hd|split; [exact Hdata|split; [|split; [|exact Hnext]]]].
    + rewrite Ht, Hgs, generic_events_app.
      cbn [generic_events]; rewrite He.
      unfold call_events; cbn [reply_of]; rewrite Hdata.
      rewrite Nat.add_0_r, <- !app_assoc; reflexivity.
    + apply (invoked_generic_events (ident self) msg target post
               (S (List.length pre))).
Qed.

(** The body [!bar x] sent to [#chan], with the failing handler registered
    as the bang-command [bar] and as the first of two generic handlers;
    behind [bar] stands a registration that is not called and whose reply
    could not be sent. *)
Lemma handler_failure_is_isolated_witness :
  let self := fresh (peer []) sample
                [(lit "bar", boom); (lit "foo", lone_surrogate)]
                [boom; pong_back] in
  let msg := {| IRC_Message.prefix := Some (lit ":nick!user@host");
                IRC_Message.nickname := Some (lit "nick");
                IRC_Message.command := Some (lit "PRIVMSG");
                IRC_Message.middle := Some (lit "#chan");
                IRC_Message.trailing := Some (lit ":!bar x");
                IRC_Message.message := Some (lit "!bar x") |} in
  let target := respond_to msg 35%N in
  let e := lit "ValueError('boom')" in
  IRC_Message.command msg = Some (lit "PRIVMSG") /\
  IRC_Message.middle msg = Some (35%N :: lit "chan") /\
  IRC_Message.message msg = Some (33%N :: lit "bar x") /\
  forallb (can_reply (ident self) msg target) (called self 33%N (lit "bar x"))
    = true /\
  (functions self = [] ++ (lit "bar", boom) :: [(lit "foo", lone_surrogate)] /\
   [33%N] = bang (ident self) /\
   Forall (fun bf : str * BotFunction =>
             fst bf = bang_word (33%N :: lit "bar x")) [] /\
   lit "bar" = bang_word (33%N :: lit "bar x") /\
   boom (ident self) msg = Raises e /\
   exists self' t1 t2 data,
     dispatch msg self = (Ok tt, self') /\
     utf8_encode (privmsg_line target e) = Some data /\
     trace self' = trace self ++ t1 ++ [Invoke Bang 0; Send data] ++ t2 /\
     invoked Generic t2 = seq 0 2 /\
     forall next rest,
     exists t,
       trace (snd (dispatch_all (msg :: next :: rest) self)) =
       trace self' ++ Stdout (IRC_Message.__str__ next) :: t) /\
  (on_privmsg self = [] ++ boom :: [pong_back] /\
   boom (ident self) msg = Raises e /\
   exists self' t1 t2 data,
     dispatch msg self = (Ok tt, self') /\
     utf8_encode (privmsg_line target e) = Some data /\
     trace self' = trace self ++ t1 ++ [Invoke Generic 0; Send data] ++ t2 /\
     invoked Generic t2 = seq 1 1 /\
     forall next rest,
     exists t,
       trace (snd (dispatch_all (msg :: next :: rest) self)) =
       trace self' ++ Stdout (IRC_Message.__str__ next) :: t).
Proof.
  intros self msg target e.
  assert (H1 : IRC_Message.command msg = Some (lit "PRIVMSG")) by reflexivity.
  assert (H2 : IRC_Message.middle msg = Some (35%N :: lit "chan"))
    by reflexivity.
  assert (H3 : IRC_Message.message msg = Some (33%N :: lit "bar x"))
    by reflexivity.
  assert (H4 : forallb (can_reply (ident self) msg target)
                 (called self 33%N (lit "bar x")) = true)
    by (vm_compute; reflexivity).
  assert (H5 : functions self
               = [] ++ (lit "bar", boom) :: [(lit "foo", lone_surrogate)])
    by reflexivity.
  assert (H6 : [33%N] = bang (ident self)) by reflexivity.
  assert (H7 : Forall (fun bf : str * BotFunction =>
                         fst bf = bang_word (33%N :: lit "bar x")) [])
    by constructor.
  assert (H8 : lit "bar" = bang_word (33%N :: lit "bar x"))
    by (vm_compute; reflexivity).
  assert (H9 : boom (ident self) msg = Raises e) by reflexivity.
  assert (H10 : on_privmsg self = [] ++ boom :: [pong_back]) by reflexivity.
  pose proof (@handler_failure_is_isolated self msg 35%N (lit "chan") 33%N
                (lit "bar x") H1 H2 H3 H4) as [A B].
  repeat (split; [assumption|]).
  split.
  - repeat (split; [assumption|]).
    exact (A [] (lit "bar") boom [(lit "foo", lone_surrogate)] e
             H5 H6 H7 H8 H9).
  - repeat (split; [assumption|]).
    exact (B [] boom [pong_back] e H10 H9).
Defined.

(** C5 as it was stated does not hold: the [try] statement covers the
    call of the handler, not the reply.  With the generic handlers
    [boom], [lone_surrogate] and [pong_back], in this order, the failure
    of the first is caught and its [repr] is sent; the reply of the
    second cannot be encoded, [privmsg] raises [UnicodeEncodeError], and
    the third handler is not called although it stood behind a handler
    that failed; the exception leaves the loop of [run], and the PING
    that follows is neither printed nor answered. *)
Lemma handler_failure_then_unencodable_reply :
  let self := fresh (peer []) sample [] [boom; lone_surrogate; pong_back] in
  let msg := {| IRC_Message.prefix := Some (lit ":nick!user@host");
                IRC_Message.nickname := Some (lit "nick");
                IRC_Message.command := Some (lit "PRIVMSG");
                IRC_Message.middle := Some (lit "#chan");
                IRC_Message.trailing := Some (lit ":hello");
                IRC_Message.message := Some (lit "hello") |} in
  boom (ident self) msg = Raises (lit "ValueError('boom')") /\
  fst (dispatch msg self) = Raise UnicodeEncodeError /\
  invoked Generic (trace (snd (dispatch msg self))) = [0; 1] /\
  sends (trace (snd (dispatch msg self)))
    = [blit "PRIVMSG #chan ValueError('boom')" ++ [x0d; x0a]] /\
  dispatch_all [msg; ping_abc] self = dispatch msg self /\
  ~ (invoked Generic (trace (snd (dispatch msg self)))
     = seq 0 (List.length (on_privmsg self))).
Proof.
  intros self msg.
  repeat split; try (vm_compute; reflexivity).
  vm_compute; discriminate.
Qed.

(** ** Where the replies go *)

Lemma sends_call_events (k : kind) (i : nat) (target r : option str) :
  sends (call_events k i target r) = reply_buffer target r.
Proof.
  unfold call_events, reply_buffer.
  destruct r as [x|]; [destruct (utf8_encode _)|]; reflexivity.
Qed.

Lemma sends_generic_events id msg target fs :
  forall i,
    sends (generic_events id msg target i fs) =
    flat_map (fun f => reply_buffer target (reply_of (f id msg))) fs.
Proof.
  induction fs as [|f fs IH]; intros i; [reflexivity|].
  cbn [generic_events flat_map].
  now rewrite sends_app, sends_call_events, IH.
Qed.

Lemma sends_bang_events id msg target word fs :
  forall i,
    sends (bang_events id msg target word i fs) =
    flat_map (fun f => reply_buffer target (reply_of (f id msg)))
      (map snd (firstn (leading word fs) fs)).
Proof.
  induction fs as [|[b f] fs IH]; intros i; [reflexivity|].
  cbn [bang_events leading]; destruct (str_eqb word b); [|reflexivity].
  cbn [firstn map snd flat_map].
  now rewrite sends_app, sends_call_events, IH.
Qed.

(** X19: where the replies go.  Take a PRIVMSG that reaches the handlers
    and let the replies of the handlers that it calls be encodable.  The
    buffers sent are, in the order of the calls (the bang-commands that
    are called, then every generic handler), one
    [PRIVMSG <target> <text>] CR LF for each handler that returned a text
    or raised, the text being what it returned or the [repr] of what it
    raised, and nothing else is sent.  The target is the middle parameter
    when it begins with [#]; otherwise it is the nickname of the sender,
    and the text [None] when the prefix gave no nickname. *)
Theorem reply_goes_to_channel_or_sender :
  forall (self : Bot) (msg : IRC_Message.t) (c : N) (mid : str)
         (c' : N) (body : str),
    IRC_Message.command msg = Some (lit "PRIVMSG") ->
    IRC_Message.middle msg = Some (c :: mid) ->
    IRC_Message.message msg = Some (c' :: body) ->
    let destination :=
      if N.eqb c 35 then c :: mid
      else match IRC_Message.nickname msg with
           | Some nick => nick
           | None => lit "None"
           end in
    let line := fun text =>
      lit "PRIVMSG " ++ destination ++ lit " " ++ text ++ CRLF in
    forallb (fun f => match reply_of (f (ident self) msg) with
                      | Some text => encodable (line text)
                      | None => true
                      end) (called self c' body) = true ->
    exists self' t,
      dispatch msg self = (Ok tt, self') /\
      trace self' = trace self ++ t /\
      sends t =
        flat_map (fun f => match reply_of (f (ident self) msg) with
                           | Some text =>
                               match utf8_encode (line text) with
                               | Some data => [data]
                               | None => []
                               end
                           | None => []
                           end) (called self c' body).
Proof.
  intros self msg c mid c' body Hc Hm Hb destination line Henc.
  assert (Hline : forall text,
             privmsg_line (respond_to msg c) text = line text).
  { intros text; unfold privmsg_line, respond_to, line, destination.
    change (str_eqb [c] (lit "#")) with (N.eqb c 35 && true).
    rewrite andb_true_r, Hm; destruct (N.eqb c 35); [reflexivity|].
    destruct (IRC_Message.nickname msg); reflexivity. }
  assert (Hrb : forall r,
             reply_buffer (respond_to msg c) r =
             match r with
             | Some text =>
                 match utf8_encode (line text) with
                 | Some data => [data]
                 | None => []
                 end
             | None => []
             end).
  { intros [text|]; [|reflexivity].
    unfold reply_buffer; now rewrite Hline. }
  assert (Henc' : forallb (can_reply (ident self) msg (respond_to msg c))
                    (called self c' body) = true).
  { rewrite forallb_forall in Henc |- *; intros f Hin.
    specialize (Henc f Hin); unfold can_reply.
    destruct (reply_of (f (ident self) msg)) as [text|]; [|reflexivity].
    now rewrite Hline. }
  destruct (dispatch_privmsg_called msg self Hc Hm Hb Henc')
    as (self' & Hd & Ht & _).
  eexists self', _; split; [exact Hd|split; [exact Ht|]].
  rewrite !sends_app, sends_generic_events; cbn [sends flat_map app].
  unfold called; rewrite flat_map_app.
  assert (Hbang : sends (bang_part self msg (respond_to msg c) c' body) =
                  flat_map
                    (fun f => reply_buffer (respond_to msg c)
                                (reply_of (f (ident self) msg)))
                    (if str_eqb [c'] (bang (ident self))
                     then map snd
                            (firstn (leading (bang_word (c' :: body))
                                       (functions self)) (functions self))
                     else [])).
  { unfold bang_part; destruct (str_eqb [c'] (bang (ident self)));
      [apply sends_bang_events|reflexivity]. }
  rewrite Hbang; f_equal; apply flat_map_ext; intros f; apply Hrb.
Qed.

Lemma reply_goes_to_channel_or_sender_witness :
  let self := fresh (peer []) sample [(lit "hello", pong_back)]
                [pong_back; boom] in
  let msg := notice_from_server in
  IRC_Message.command msg = Some (lit "PRIVMSG") /\
  IRC_Message.middle msg = Some (98%N :: lit "ot") /\
  IRC_Message.message msg = Some (104%N :: lit "ello") /\
  forallb (fun f => match reply_of (f (ident self) msg) with
                    | Some text =>
                        encodable (lit "PRIVMSG " ++ lit "None" ++ lit " "
                                   ++ text ++ CRLF)
                    | None => true
                    end) (called self 104%N (lit "ello")) = true /\
  exists self' t,
    dispatch msg self = (Ok tt, self') /\
    trace self' = trace self ++ t /\
    sends t = [blit "PRIVMSG None pong" ++ [x0d; x0a];
               blit "PRIVMSG None ValueError('boom')" ++ [x0d; x0a]].
Proof.
  intros self msg.
  assert (H1 : IRC_Message.command msg = Some (lit "PRIVMSG")) by reflexivity.
  assert (H2 : IRC_Message.middle msg = Some (98%N :: lit "ot"))
    by reflexivity.
  assert (H3 : IRC_Message.message msg = Some (104%N :: lit "ello"))
    by reflexivity.
  assert (H4 : forallb
                 (fun f => match reply_of (f (ident self) msg) with
                           | Some text =>
                               encodable (lit "PRIVMSG " ++ lit "None"
                                          ++ lit " " ++ text ++ CRLF)
                           | None => true
                           end) (called self 104%N (lit "ello")) = true)
    by (vm_compute; reflexivity).
  repeat (split; [assumption|]).
  exact (@reply_goes_to_channel_or_sender self msg 98%N (lit "ot") 104%N
           (lit "ello") H1 H2 H3 H4).
Defined.
